(** * Placeport: the statistics store of [server.js]

    Shallow embedding of the [StateManagement] class of [src/server.js]
    and of the stats handlers built on it ([saveAllImageStats],
    [sendRecent*], [sendTop*], [sendSecondHits], [clearAllStats]).

    - JavaScript values stored as entries are the inductive [jvalue];
      numbers are integers ([Z]), which is what the code stores
      (millisecond timestamps, counts, route parameters are strings).
    - The store is a record with the in-memory map [localPersistance]
      and, for the file mode, the directory of JSON files seen as a map
      from collection name to the parsed content of [<name>.json].
    - Methods run in a small state and exception monad [M]: a thrown
      JavaScript error leaves the state it was thrown in.
    - [Date.now()] / [new Date()] are read by the caller and passed in
      as explicit integer arguments (milliseconds). *)

From Stdlib Require Import ZArith DecimalString Ascii String.
From Stdlib Require Import Sorted QArith Qround.
From stdpp Require Import base gmap list strings.

Open Scope Z_scope.
#[local] Set Warnings "-register-all".

(* ------------------------------------------------------------------ *)
(** ** JavaScript values and [JSON.stringify] *)

Inductive jvalue : Type :=
| JUndefined
| JNull
| JBool (b : bool)
| JNum (z : Z)
| JStr (s : string)
| JArr (xs : list jvalue)
| JObj (fields : list (string * jvalue)).

(** Decimal text of an integer number, as [String(n)]. *)
Definition number_to_string (z : Z) : string :=
  NilZero.string_of_int (Z.to_int z).

Definition hex_digit (n : nat) : ascii :=
  if Nat.ltb n 10 then ascii_of_nat (48 + n) else ascii_of_nat (87 + n).

(** Escaping of one character inside a JSON string literal
    (QuoteJSONString: the two-character escapes, [\u00XX] for the other
    control characters). *)
Definition json_escape_char (c : ascii) : string :=
  let n := nat_of_ascii c in
  if Nat.eqb n 34 then String "\" (String "034" EmptyString)
  else if Nat.eqb n 92 then String "\" (String "\" EmptyString)
  else if Nat.eqb n 8 then String "\" (String "b" EmptyString)
  else if Nat.eqb n 12 then String "\" (String "f" EmptyString)
  else if Nat.eqb n 10 then String "\" (String "n" EmptyString)
  else if Nat.eqb n 13 then String "\" (String "r" EmptyString)
  else if Nat.eqb n 9 then String "\" (String "t" EmptyString)
  else if Nat.ltb n 32 then
    String.append "\u00"
      (String (hex_digit (Nat.div n 16)) (String (hex_digit (Nat.modulo n 16)) EmptyString))
  else String c EmptyString.

Fixpoint json_escape (s : string) : string :=
  match s with
  | EmptyString => EmptyString
  | String c s' => String.append (json_escape_char c) (json_escape s')
  end.

Definition json_quote (s : string) : string :=
  String "034" (String.append (json_escape s) (String "034" EmptyString)).

Fixpoint join_comma (xs : list string) : string :=
  match xs with
  | [] => EmptyString
  | [x] => x
  | x :: xs' => String.append x (String "," (join_comma xs'))
  end.

(** [JSON.stringify(v)]; [None] is the [undefined] it returns for
    [undefined].  Array holes of kind [undefined] print as [null],
    object properties holding [undefined] are left out. *)
Fixpoint json_stringify (v : jvalue) : option string :=
  match v with
  | JUndefined => None
  | JNull => Some "null"
  | JBool true => Some "true"
  | JBool false => Some "false"
  | JNum z => Some (number_to_string z)
  | JStr s => Some (json_quote s)
  | JArr xs =>
      Some (String "[" (String.append
        (join_comma (map (fun x => match json_stringify x with
                                   | Some s => s | None => "null" end) xs))
        "]"))
  | JObj fs =>
      Some (String "{" (String.append
        (join_comma
           ((fix go (fs : list (string * jvalue)) : list string :=
               match fs with
               | [] => []
               | (k, x) :: fs' =>
                   match json_stringify x with
                   | Some s => String.append (json_quote k) (String ":" s) :: go fs'
                   | None => go fs'
                   end
               end) fs))
        "}"))
  end.

(** [JSON.parse(JSON.stringify(v))] on the values the store keeps:
    object properties holding [undefined] disappear, [undefined] array
    elements come back as [null]; a record whose [entry] is [undefined]
    comes back without it, i.e. with [entry] still [undefined]. *)
Fixpoint json_roundtrip (v : jvalue) : jvalue :=
  match v with
  | JArr xs =>
      JArr (map (fun x => match x with
                          | JUndefined => JNull
                          | _ => json_roundtrip x end) xs)
  | JObj fs =>
      JObj ((fix go (fs : list (string * jvalue)) : list (string * jvalue) :=
               match fs with
               | [] => []
               | (k, JUndefined) :: fs' => go fs'
               | (k, x) :: fs' => (k, json_roundtrip x) :: go fs'
               end) fs)
  | _ => v
  end.

(* ------------------------------------------------------------------ *)
(** ** Stored records and [Array.prototype.sort] *)

(** [{ entry, time, count }] *)
Record record : Type := mkRecord {
  entry : jvalue;
  time : Z;
  count : Z
}.

Definition record_roundtrip (r : record) : record :=
  mkRecord (json_roundtrip (entry r)) (time r) (count r).

(** A comparator: the number [comparefn(a, b)] returns. *)
Definition comparator := record -> record -> Z.

(** [(a, b) => b.time - a.time] of [addArrayEntry]. *)
Definition cmp_recency : comparator := fun a b => time b - time a.

(** [(a, b) => (a.count === b.count ? b.time - a.time : b.count - a.count)]
    of [addArrayCountEntry]. *)
Definition cmp_frequency : comparator :=
  fun a b => if count a =? count b then time b - time a else count b - count a.

(** [(a, b) => a.time < b.time] of [getArrayEntries]: the boolean is
    turned into the number 1 or 0 by the sort. *)
Definition cmp_time_bool : comparator :=
  fun a b => if time a <? time b then 1 else 0.

(** [(a, b) => a.count < b.count] of [sendTopSizes] / [sendTopReferences]. *)
Definition cmp_count_bool : comparator :=
  fun a b => if count a <? count b then 1 else 0.

(** One step of the insertion sort V8 runs: the sorted prefix is held
    reversed (its last element first); the pivot moves left past every
    element [y] with [comparefn(pivot, y) < 0]. *)
Fixpoint insert_pivot (cmp : comparator) (x : record) (rev_prefix : list record)
  : list record :=
  match rev_prefix with
  | [] => [x]
  | y :: ys => if cmp x y <? 0 then y :: insert_pivot cmp x ys else x :: y :: ys
  end.

(** [arr.sort(cmp)] (in place, the result is the same array).
    V8's TimSort, by which Node runs [Array.prototype.sort], first
    measures the run at the front of the array: when [comparefn] never
    returns a negative number that run spans the whole array and the
    array is left as it is, which is what the insertion below does.
    For a consistent comparator the ECMAScript specification fixes the
    result as the stable sort, which the insertion computes as well.
    Every comparator of [server.js] is of one of these two kinds. *)
Definition js_sort (cmp : comparator) (xs : list record) : list record :=
  rev (fold_left (fun acc x => insert_pivot cmp x acc) xs []).

(** [arr.pop()]: the last element is removed (nothing on []). *)
Definition js_pop (xs : list record) : list record := removelast xs.

(* ------------------------------------------------------------------ *)
(** ** The store and its monad *)

(** The fields of a [StateManagement] instance that the methods read:
    [filePersistance], [localPersistance], and the files
    [<location>/<name>.json] that exist, each with its parsed content. *)
Record store : Type := mkStore {
  filePersistance : bool;
  localPersistance : gmap string (list record);
  files : gmap string (list record)
}.

(** [new StateManagement(location, filePersistance)] over a directory
    holding [files] (created empty when it does not exist). *)
Definition new_state_management (persist : bool) (disk : gmap string (list record)) : store :=
  mkStore persist ∅ disk.

Inductive js_error : Type :=
| ReferenceError (msg : string).

Inductive outcome (A : Type) : Type :=
| Normal (a : A)
| Thrown (e : js_error).
Arguments Normal {A} a.
Arguments Thrown {A} e.

(** A method call: the store in, its result or thrown error and the
    store out. *)
Definition M (A : Type) : Type := store -> outcome A * store.

Definition ret {A} (a : A) : M A := fun st => (Normal a, st).
Definition throw {A} (e : js_error) : M A := fun st => (Thrown e, st).
Definition bind {A B} (m : M A) (f : A -> M B) : M B :=
  fun st => match m st with
            | (Normal a, st') => f a st'
            | (Thrown e, st') => (Thrown e, st')
            end.

Notation "'let*' x := m 'in' k" := (bind m (fun x => k))
  (at level 200, x name, m at level 100, k at level 200).

Definition get_store : M store := fun st => (Normal st, st).
Definition put_store (st : store) : M unit := fun _ => (Normal tt, st).

(* ------------------------------------------------------------------ *)
(** ** [StateManagement] *)

(** Where the array handed out by a read lives: the array object of
    [localPersistance] (so that an in-place sort changes the store), a
    fresh array parsed from the file, or the fresh [[]]. *)
Inductive array_source : Type := FromMemory | FromFile | Fresh.

(** The first lines of [getArrayEntries]:
    [let content = this.localPersistance[name] || [];
     if (this.filePersistance && fs.existsSync(file))
       content = JSON.parse(fs.readFileSync(file)) || [];] *)
Definition load (st : store) (name : string) : list record * array_source :=
  let content :=
    match localPersistance st !! name with
    | Some l => (l, FromMemory)
    | None => ([], Fresh)
    end in
  if filePersistance st then
    match files st !! name with
    | Some l => (l, FromFile)
    | None => content
    end
  else content.

(** The array [localPersistance[name]] after [arr.sort(cmp)] was run on
    the array handed out by [load]. *)
Definition sort_in_place (st : store) (name : string) (src : array_source)
    (sorted : list record) : store :=
  match src with
  | FromMemory => mkStore (filePersistance st) (<[name := sorted]> (localPersistance st)) (files st)
  | _ => st
  end.

(** What [getArrayEntries] returns: the entries ([map] true) or the
    record objects ([map] false). *)
Inductive entries_view : Type :=
| Entries (xs : list jvalue)
| Records (rs : list record).

(** [getArrayEntries(name, map = true, order = true)] *)
Definition getArrayEntries (name : string) (map_ order : bool) : M entries_view :=
  fun st =>
    let '(content, src) := load st name in
    let content' := if order then js_sort cmp_time_bool content else content in
    let st' := if order then sort_in_place st name src content' else st in
    (Normal (if map_ then Entries (map entry content') else Records content'), st').

(** [writeArrayEntries(name, entries)]: the file ([JSON.stringify]) when
    persisting, then the in-memory array. *)
Definition writeArrayEntries (name : string) (entries : list record) : M unit :=
  fun st =>
    let files' :=
      if filePersistance st then <[name := map record_roundtrip entries]> (files st)
      else files st in
    (Normal tt, mkStore (filePersistance st) (<[name := entries]> (localPersistance st)) files').

(** [removeArrayEntries(name)] *)
Definition removeArrayEntries (name : string) : M unit := writeArrayEntries name [].

(** [isNil(value)]: [value == null]. *)
Definition isNil (v : jvalue) : bool :=
  match v with JUndefined | JNull => true | _ => false end.

(** [_canAdd(entry)].  The array test reads [a.length]; no [a] is bound
    in [server.js], so evaluating it throws a [ReferenceError]. *)
Definition _canAdd (e : jvalue) : M bool :=
  if isNil e then ret false
  else match e with
       | JStr s => ret (negb (String.eqb s ""))
       | JArr _ => throw (ReferenceError "a is not defined")
       | _ => ret true
       end.

(** [JSON.stringify(x.entry) === JSON.stringify(entry)] *)
Definition same_entry (a b : jvalue) : bool :=
  match json_stringify a, json_stringify b with
  | Some s, Some t => String.eqb s t
  | None, None => true
  | _, _ => false
  end.

(** [_incrementEntry(entry)]: [entry.time = Date.now(); entry.count += 1;] *)
Definition _incrementEntry (now : Z) (r : record) : record :=
  mkRecord (entry r) now (count r + 1).

(** [_incrementIfExists(content, entry)]: the first stored record whose
    entry stringifies the same is incremented in place; [None] is the
    [false] returned when there is none. *)
Fixpoint _incrementIfExists (now : Z) (content : list record) (e : jvalue)
  : option (list record) :=
  match content with
  | [] => None
  | r :: rs =>
      if same_entry (entry r) e then Some (_incrementEntry now r :: rs)
      else option_map (cons r) (_incrementIfExists now rs e)
  end.

(** [if (!increment || !this._incrementIfExists(content, entry))
      content.push({ entry, time: Date.now(), count: 1 });] *)
Definition merge_or_push (increment : bool) (now : Z) (content : list record) (e : jvalue)
  : list record :=
  match (if increment then _incrementIfExists now content e else None) with
  | Some c => c
  | None => content ++ [mkRecord e now 1]
  end.

(** [if (!isNil(persistAmount) && content.length > persistAmount)
      { content.sort(cmp); content.pop(); }] *)
Definition evict (cmp : comparator) (persistAmount : option Z) (content : list record)
  : list record :=
  match persistAmount with
  | Some k => if k <? Z.of_nat (length content) then js_pop (js_sort cmp content) else content
  | None => content
  end.

(** The shared body of [addArrayEntry] and [addArrayCountEntry]; they
    differ only in the comparator sorting before the [pop]. *)
Definition add_with (cmp : comparator) (name : string) (e : jvalue)
    (persistAmount : option Z) (increment : bool) (now : Z) : M unit :=
  let* ok := _canAdd e in
  if negb ok then ret tt else
  let* v := getArrayEntries name false false in
  let content := match v with Records rs => rs | Entries _ => [] end in
  writeArrayEntries name (evict cmp persistAmount (merge_or_push increment now content e)).

(** [addArrayEntry(name, entry, persistAmount, increment = true)] *)
Definition addArrayEntry := add_with cmp_recency.

(** [addArrayCountEntry(name, entry, persistAmount, increment = true)] *)
Definition addArrayCountEntry := add_with cmp_frequency.

(* ------------------------------------------------------------------ *)
(** ** The stats handlers *)

(** [sendRecentTexts], [sendRecentPaths], [sendRecentSizes]:
    [res.json(stateManagement.getArrayEntries(name))]. *)
Definition sendRecent (name : string) : M entries_view := getArrayEntries name true true.

Definition sendRecentTexts := sendRecent "texts".
Definition sendRecentPaths := sendRecent "paths".
Definition sendRecentSizes := sendRecent "sizes".

(** [target[k] = v] on an object given by its own properties in order. *)
Fixpoint set_prop (k : string) (v : jvalue) (fs : list (string * jvalue))
  : list (string * jvalue) :=
  match fs with
  | [] => [(k, v)]
  | (k', v') :: fs' => if String.eqb k k' then (k, v) :: fs' else (k', v') :: set_prop k v fs'
  end.

(** The own enumerable properties [Object.assign] copies from a source. *)
Definition own_props (v : jvalue) : list (string * jvalue) :=
  match v with
  | JObj fs => fs
  | JArr xs => imap (fun i x => (number_to_string (Z.of_nat i), x)) xs
  | JStr s => imap (fun i c => (number_to_string (Z.of_nat i), JStr (String c EmptyString)))
                   (list_ascii_of_string s)
  | _ => []
  end.

(** [Object.assign(target, source)] *)
Definition object_assign (target : list (string * jvalue)) (source : jvalue) : jvalue :=
  JObj (fold_left (fun acc kv => set_prop kv.1 kv.2 acc) (own_props source) target).

(** [(x) => Object.assign({ n: x.count }, x.entry)] *)
Definition top_size (r : record) : jvalue := object_assign [("n", JNum (count r))] (entry r).

(** [(x) => Object.assign({}, { ref: x.entry, n: x.count })] *)
Definition top_reference (r : record) : jvalue :=
  object_assign [] (JObj [("ref", entry r); ("n", JNum (count r))]).

(** [getArrayEntries(name, false, false).sort((a, b) => a.count < b.count)]:
    the array handed out is sorted in place. *)
Definition sorted_by_count_bool (name : string) : M (list record) :=
  fun st =>
    let '(content, src) := load st name in
    let sorted := js_sort cmp_count_bool content in
    (Normal sorted, sort_in_place st name src sorted).

(** [sendTopSizes] *)
Definition sendTopSizes : M (list jvalue) :=
  let* sizes := sorted_by_count_bool "sizes-all" in
  ret (map top_size sizes).

(** [sendTopReferences] *)
Definition sendTopReferences : M (list jvalue) :=
  let* refs := sorted_by_count_bool "references" in
  ret (map top_reference refs).

(** The filter of [sendSecondHits]: [x.time > adjusted && x.time < current]
    (a [Date] compares by its millisecond value). *)
Definition in_window (adjusted current : Z) (x : record) : bool :=
  (adjusted <? time x) && (time x <? current).

Definition hit_count (title : string) (c : nat) : jvalue :=
  JObj [("title", JStr title); ("count", JNum (Z.of_nat c))].

(** [sendSecondHits].  [adjusted] and [current] are the two
    [new Date()] read one after the other; each
    [adjusted.setSeconds(adjusted.getSeconds() - 5)] moves [adjusted]
    5000 ms back (the local-time offset does not change within those
    seconds). *)
Definition sendSecondHits (adjusted current : Z) : M (list jvalue) :=
  let* v := getArrayEntries "hits" false true in
  let all := match v with Records rs => rs | Entries _ => [] end in
  let c5 := length (filter (in_window (adjusted - 5000) current) all) in
  let c10 := length (filter (in_window (adjusted - 10000) current) all) in
  let filteredFifteen := filter (in_window (adjusted - 15000) current) all in
  let* _ := writeArrayEntries "hits" filteredFifteen in
  ret [hit_count "5s" c5; hit_count "10s" c10; hit_count "15s" (length filteredFifteen)].

Definition stat_names : list string :=
  ["hits"; "paths"; "texts"; "sizes"; "sizes-all"; "references"].

(** [clearAllStats] *)
Definition clearAllStats : M unit :=
  let* _ := removeArrayEntries "hits" in
  let* _ := removeArrayEntries "paths" in
  let* _ := removeArrayEntries "texts" in
  let* _ := removeArrayEntries "sizes" in
  let* _ := removeArrayEntries "sizes-all" in
  removeArrayEntries "references".

(* ------------------------------------------------------------------ *)
(** ** Sequences of calls *)

(** One call on the store, with the clock readings it makes. *)
Inductive call : Type :=
| CallAddArrayEntry (name : string) (e : jvalue) (persistAmount : option Z)
    (increment : bool) (now : Z)
| CallAddArrayCountEntry (name : string) (e : jvalue) (persistAmount : option Z)
    (increment : bool) (now : Z)
| CallGetArrayEntries (name : string) (map_ order : bool)
| CallRemoveArrayEntries (name : string)
| CallSendTopSizes
| CallSendTopReferences
| CallSendSecondHits (adjusted current : Z)
| CallClearAllStats.

Definition run_call (c : call) : M unit :=
  match c with
  | CallAddArrayEntry n e p i t => addArrayEntry n e p i t
  | CallAddArrayCountEntry n e p i t => addArrayCountEntry n e p i t
  | CallGetArrayEntries n m o => let* _ := getArrayEntries n m o in ret tt
  | CallRemoveArrayEntries n => removeArrayEntries n
  | CallSendTopSizes => let* _ := sendTopSizes in ret tt
  | CallSendTopReferences => let* _ := sendTopReferences in ret tt
  | CallSendSecondHits a c => let* _ := sendSecondHits a c in ret tt
  | CallClearAllStats => clearAllStats
  end.

(** Calls one after the other; a call that throws fails its own request
    only, the next one runs on the store it left. *)
Fixpoint run_calls (cs : list call) (st : store) : store :=
  match cs with
  | [] => st
  | c :: cs' => run_calls cs' (run_call c st).2
  end.

(** The result of a call, and the store after it. *)
Definition result_of {A} (m : M A) (st : store) : outcome A := (m st).1.
Definition store_after {A} (m : M A) (st : store) : store := (m st).2.

(* ------------------------------------------------------------------ *)
(** ** [escape], [formatString] and the quotes *)

(** The characters [escape] leaves as they are:
    [A-Z a-z 0-9 @ * _ + - . /]. *)
Definition escape_safe (c : ascii) : bool :=
  let n := nat_of_ascii c in
  (Nat.leb 65 n && Nat.leb n 90) || (Nat.leb 97 n && Nat.leb n 122) ||
  (Nat.leb 48 n && Nat.leb n 57) ||
  Nat.eqb n 64 || Nat.eqb n 42 || Nat.eqb n 95 || Nat.eqb n 43 ||
  Nat.eqb n 45 || Nat.eqb n 46 || Nat.eqb n 47.

(** An upper-case hexadecimal digit. *)
Definition hex_upper (n : nat) : ascii :=
  if Nat.ltb n 10 then ascii_of_nat (48 + n) else ascii_of_nat (55 + n).

(** The global [escape(string)] on code units below 256: a character
    outside the safe set becomes [%XX]. *)
Fixpoint js_escape (s : string) : string :=
  match s with
  | EmptyString => EmptyString
  | String c s' =>
      if escape_safe c then String c (js_escape s')
      else String "%" (String (hex_upper (Nat.div (nat_of_ascii c) 16))
             (String (hex_upper (Nat.modulo (nat_of_ascii c) 16)) (js_escape s')))
  end.

(** [pat] is a prefix of [s]. *)
Fixpoint starts_with (pat s : string) : bool :=
  match pat, s with
  | EmptyString, _ => true
  | String a p', String b s' => Ascii.eqb a b && starts_with p' s'
  | String _ _, EmptyString => false
  end.

(** [s.indexOf(pat)], [None] for [-1]. *)
Fixpoint index_of (pat s : string) : option nat :=
  if starts_with pat s then Some 0%nat
  else match s with
       | EmptyString => None
       | String _ s' => option_map S (index_of pat s')
       end.

(** [s.includes(pat)] *)
Definition includes (pat s : string) : bool :=
  match index_of pat s with Some _ => true | None => false end.

(** GetSubstitution for a string pattern (no captures): [$$], [$&],
    [$`] and [$'] are replaced, every other character is copied. *)
Fixpoint get_substitution (matched before after : string) (t : string) : string :=
  match t with
  | String "$" (String "$" t') => String "$" (get_substitution matched before after t')
  | String "$" (String "&" t') => String.append matched (get_substitution matched before after t')
  | String "$" (String "`" t') => String.append before (get_substitution matched before after t')
  | String "$" (String "'" t') => String.append after (get_substitution matched before after t')
  | String c t' => String c (get_substitution matched before after t')
  | EmptyString => EmptyString
  end.

(** [s.replace(pat, rep)] with a string pattern: the first occurrence
    only. *)
Definition js_replace (s pat rep : string) : string :=
  match index_of pat s with
  | None => s
  | Some i =>
      let before := substring 0 i s in
      let after := substring (i + String.length pat) (String.length s) s in
      String.append before (String.append (get_substitution pat before after rep) after)
  end.

(** [formatString(stringValue, ...args)], the arguments already
    converted to strings by [replace]. *)
Definition formatString (stringValue : string) (args : list string) : string :=
  fold_left (fun s element => if includes "%s" s then js_replace s "%s" element else s)
    args stringValue.

(** [constants.WORDS] *)
Definition WORDS : list string :=
  ["boom"; "lettuce"; "substance"; "bear"; "discover"; "savory"; "party";
   "zippy"; "potato"; "gainful"; "sharp"; "move"; "offbeat"].

(** [constants.QUOTES] *)
Definition QUOTES : list string :=
  ["Turn your %s into wisdom.";
   "Wherever you go, go with all your %s.";
   "%s is a waking dream.";
   "If you %s it, you can %s it.";
   "Dream %s and dare to %s."].

(** [s.match(/%s/g)]: the number of matches, [None] for the [null]
    returned when there is none. *)
Fixpoint count_pct_s (s : string) : nat :=
  match s with
  | String "%" (String "s" r) => S (count_pct_s r)
  | String _ r => count_pct_s r
  | EmptyString => 0
  end.

Definition match_pct_s (s : string) : option nat :=
  match count_pct_s s with 0%nat => None | n => Some n end.

(** [getRandomWord()] for the drawn index [idx] of
    [getRandomNum(0, words.length - 1)]; out of range it is
    [undefined], which [replace] turns into the string "undefined". *)
Definition random_word (idx : nat) : string :=
  match nth_error WORDS idx with Some w => w | None => "undefined" end.

(** [c] occurs in [s]. *)
Fixpoint has_char (c : ascii) (s : string) : bool :=
  match s with
  | EmptyString => false
  | String d s' => Ascii.eqb c d || has_char c s'
  end.

(** The text [seg0 %s seg1 %s ... %s segk]. *)
Fixpoint template (seg0 : string) (segs : list string) : string :=
  match segs with
  | [] => seg0
  | seg1 :: segs' => String.append seg0 (String.append "%s" (template seg1 segs'))
  end.

(** [template seg0 segs] with its first placeholders filled by [args]
    in order. *)
Fixpoint fill (seg0 : string) (segs : list string) (args : list string) : string :=
  match segs, args with
  | [], _ => seg0
  | seg1 :: segs', a :: args' => String.append seg0 (String.append a (fill seg1 segs' args'))
  | _ :: _, [] => template seg0 segs
  end.

(* ------------------------------------------------------------------ *)
(** ** Numbers and the request validators *)

(** A JavaScript number: a double is [NaN], an infinity or a finite
    rational. *)
Inductive jsnum : Type :=
| NaN
| PosInf
| NegInf
| Fin (q : Q).

Definition js_isNaN (n : jsnum) : bool := match n with NaN => true | _ => false end.

(** [n % 1 !== 0]: [NaN] for [NaN] and the infinities, the fractional
    part (with the sign of [n]) for a finite [n]. *)
Definition mod1_nonzero (n : jsnum) : bool :=
  match n with
  | Fin q => negb (Z.eqb (Z.rem (Qnum q) (Zpos (Qden q))) 0)
  | _ => true
  end.

(** [n > k] and [n < k] for an integer [k]. *)
Definition js_gt (n : jsnum) (k : Z) : bool :=
  match n with
  | Fin q => negb (Qle_bool q (inject_Z k))
  | PosInf => true
  | _ => false
  end.

Definition js_lt (n : jsnum) (k : Z) : bool :=
  match n with
  | Fin q => negb (Qle_bool (inject_Z k) q)
  | NegInf => true
  | _ => false
  end.

(** The integer a validated number holds ([Fin q] with [q] an integer). *)
Definition jsnum_int (n : jsnum) : Z := match n with Fin q => Qfloor q | _ => 0 end.

(** [constants.GRID_MAX], [GRID_MIN], [SQUARE_MIN], [AMOUNT_MIN],
    [AMOUNT_MAX] *)
Definition GRID_MAX : Z := 2000.
Definition GRID_MIN : Z := 1.
Definition SQUARE_MIN : Z := 1.
Definition AMOUNT_MIN : Z := 2.
Definition AMOUNT_MAX : Z := 2000.

(** What a middleware does: answer the request with a status and a JSON
    body, call [next()] with the updated request data, or throw. *)
Inductive mw_result (A : Type) : Type :=
| Respond (code : Z) (body : jvalue)
| Next (a : A)
| Crash (msg : string).
Arguments Respond {A} code body.
Arguments Next {A} a.
Arguments Crash {A} msg.

Definition error_body (error message : string) : jvalue :=
  JObj [("error", JStr error); ("message", JStr message)].

Section Validators.
(** [Number(s)] (what [isNaN], [<], [>] and [%] apply to a string) and
    [parseFloat(s)]: any functions. *)
Variable to_number : string -> jsnum.
Variable parse_float : string -> jsnum.

(** [validateWidthAndHeightRequirements]: the parsed width and height
    it stores into [req.params]. *)
Definition validateWidthAndHeightRequirements (width height : option string)
  : mw_result (jsnum * jsnum) :=
  let height := match height with None => width | Some _ => height end in
  match width, height with
  | Some w, Some h =>
      if js_isNaN (to_number w) || js_isNaN (to_number h) then
        Respond 400 (error_body "Height & Width" "The width & height must be set to create a image.")
      else
        let wn := parse_float w in
        let hn := parse_float h in
        if mod1_nonzero wn || mod1_nonzero hn then
          Respond 400 (error_body "Height & Width" "The height & width must be integers (no decimal places).")
        else if js_gt wn GRID_MAX || js_gt hn GRID_MAX then
          Respond 403 (error_body "Height & Width"
            (String.append "The height & width must equal to or less than "
               (String.append (number_to_string GRID_MAX) ".")))
        else if js_lt wn GRID_MIN || js_lt hn GRID_MIN then
          Respond 400 (error_body "Height & Width"
            (String.append "The height & width must equal to or greater than "
               (String.append (number_to_string GRID_MIN) ".")))
        else Next (wn, hn)
  | _, _ =>
      Respond 400 (error_body "Height & Width" "The width & height must be set to create a image.")
  end.

(** [validateSquareRequirements]: [req.query.square] afterwards. *)
Definition validateSquareRequirements (square : option string) : mw_result (option jsnum) :=
  match square with
  | None => Next None
  | Some s =>
      let parsedSquare := parse_float s in
      if js_isNaN (to_number s) then
        Respond 400 (error_body "Square" "The square query must be a integer if set.")
      else if negb (js_isNaN parsedSquare) && js_lt parsedSquare SQUARE_MIN then
        Respond 400 (error_body "Square" "The square query must be a positive integer if set.")
      else if mod1_nonzero parsedSquare then
        Respond 400 (error_body "Square" "The square must be an integer (no decimal places).")
      else Next (Some parsedSquare)
  end.

(** [validateAmountRequirements], run after the square validation:
    [req.query.amount] afterwards. *)
Definition validateAmountRequirements (amount : option string) (square : option jsnum)
  : mw_result (option jsnum) :=
  match amount with
  | None => Next None
  | Some a =>
      if js_lt (to_number a) AMOUNT_MIN || js_gt (to_number a) AMOUNT_MAX then
        Respond 400 (error_body "Amount"
          (String.append "Amount query cannot be less "
            (String.append (number_to_string AMOUNT_MIN)
              (String.append " or greater than " (number_to_string AMOUNT_MAX)))))
      else if mod1_nonzero (to_number a) then
        Respond 400 (error_body "Amount" "The amount must be an integer (no decimal places).")
      else match square with
           | Some _ =>
               Respond 400 (error_body "Square" "If you are using the amount property, square.")
           | None => Next (Some (parse_float a))
           end
  end.
End Validators.

(** [n] is a finite number equal to the integer [k]. *)
Definition int_valued (n : jsnum) (k : Z) : Prop :=
  match n with Fin q => (q == inject_Z k)%Q | _ => False end.

(** [generateInspirationalQuote]: [qi] is the drawn quote index,
    [word i] the index drawn by [getRandomWord()] in round [i]; the
    text stored into [req.query.text]. *)
Definition generateInspirationalQuote (text : option string) (qi : nat) (word : nat -> nat)
  : mw_result string :=
  match text with
  | Some _ =>
      Respond 400 (error_body "Text" "Text query cannot be set if you are looking for a inspiration")
  | None =>
      match nth_error QUOTES qi with
      | None => Crash "Cannot read properties of undefined (reading 'match')"
      | Some randomQuote =>
          match match_pct_s randomQuote with
          | None => Crash "Cannot read properties of null (reading 'length')"
          | Some amountToReplace =>
              Next (fold_left (fun q index => formatString q [random_word (word index)])
                      (seq 0 amountToReplace) randomQuote)
          end
      end
  end.



(** [generateRandomProperties]: [rw], [rh], [rs] are the drawn width,
    height and square, [widx] the index drawn by [getRandomWord()]; the
    width, height, square and text it leaves in the request. *)
Definition generateRandomProperties (square : option jsnum) (text : option string)
    (rw rh rs : Z) (widx : nat) : jsnum * jsnum * option jsnum * option string :=
  let square' := match square with None => Some (Fin (inject_Z rs)) | Some _ => square end in
  let text' := match text with
               | None => Some (random_word widx)
               | Some t => if String.eqb t "" then Some (random_word widx) else text
               end in
  (Fin (inject_Z rw), Fin (inject_Z rh), square', text').

(* ------------------------------------------------------------------ *)
(** ** [saveAllImageStats] and the image routes *)

(** The [path] [saveAllImageStats] records. *)
Definition stats_path (baseUrl : string) (width height : Z) (square : option Z)
    (text : option string) : string :=
  let path := String.append baseUrl (String.append "/" (String.append (number_to_string width)
                (String.append "/" (number_to_string height)))) in
  let path := match square with
              | Some s =>
                  String.append path (String.append "?square=" (String.append (number_to_string s)
                    (match text with
                     | None => ""
                     | Some t => String.append "&text=" (js_escape t)
                     end)))
              | None => path
              end in
  match square, text with
  | None, Some t => String.append path (String.append "?text=" (js_escape t))
  | _, _ => path
  end.

(** [req.query.text] as an entry. *)
Definition text_entry (text : option string) : jvalue :=
  match text with None => JUndefined | Some t => JStr t end.

(** [{ w: width, h: height }] *)
Definition size_entry (width height : Z) : jvalue := JObj [("w", JNum width); ("h", JNum height)].

(** [saveAllImageStats]; [now i] is what the [i]-th insert reads from
    [Date.now()]. *)
Definition saveAllImageStats (baseUrl : string) (width height : Z) (square : option Z)
    (text reference : option string) (now : nat -> Z) : M unit :=
  let path := stats_path baseUrl width height square text in
  let* _ := addArrayEntry "hits" (JStr path) None false (now 0%nat) in
  let* _ := addArrayEntry "paths" (JStr path) (Some 10) true (now 1%nat) in
  let* _ := addArrayEntry "texts" (text_entry text) (Some 10) true (now 2%nat) in
  let* _ := addArrayEntry "sizes" (size_entry width height) (Some 10) true (now 3%nat) in
  let* _ := addArrayCountEntry "sizes-all" (size_entry width height) (Some 10) true (now 4%nat) in
  match reference with
  | Some r =>
      if negb (String.eqb r "") then addArrayCountEntry "references" (JStr r) (Some 10) true (now 5%nat)
      else ret tt
  | None => ret tt
  end.

(** What reaches [sendImagerModule]: width, height, square and text. *)
Definition image_request : Type := (jsnum * jsnum * option jsnum * option string)%type.

(** The route [/img/:width] and [/img/:width/:height]:
    [validateWidthAndHeightRequirements], [validateSquareRequirements],
    [saveAllImageStats], then the image. *)
Definition image_route (to_number parse_float : string -> jsnum) (baseUrl : string)
    (width height square text reference : option string) (now : nat -> Z)
  : M (mw_result image_request) :=
  match validateWidthAndHeightRequirements to_number parse_float width height with
  | Respond c b => ret (Respond c b)
  | Crash m => ret (Crash m)
  | Next (wn, hn) =>
      match validateSquareRequirements to_number parse_float square with
      | Respond c b => ret (Respond c b)
      | Crash m => ret (Crash m)
      | Next sq =>
          let* _ := saveAllImageStats baseUrl (jsnum_int wn) (jsnum_int hn)
                      (option_map jsnum_int sq) text reference now in
          ret (Next (wn, hn, sq, text))
      end
  end.

(** The route [/img/:width/:height/inspiration]: the two validations,
    [generateInspirationalQuote], [saveAllImageStats], the image. *)
Definition inspiration_route (to_number parse_float : string -> jsnum) (baseUrl : string)
    (width height square text reference : option string) (qi : nat) (word : nat -> nat)
    (now : nat -> Z) : M (mw_result image_request) :=
  match validateWidthAndHeightRequirements to_number parse_float width height with
  | Respond c b => ret (Respond c b)
  | Crash m => ret (Crash m)
  | Next (wn, hn) =>
      match validateSquareRequirements to_number parse_float square with
      | Respond c b => ret (Respond c b)
      | Crash m => ret (Crash m)
      | Next sq =>
          match generateInspirationalQuote text qi word with
          | Respond c b => ret (Respond c b)
          | Crash m => ret (Crash m)
          | Next quote =>
              let* _ := saveAllImageStats baseUrl (jsnum_int wn) (jsnum_int hn)
                          (option_map jsnum_int sq) (Some quote) reference now in
              ret (Next (wn, hn, sq, Some quote))
          end
      end
  end.

(* ================================================================== *)
(** * Auxiliary definitions *)

(** The inserts of the entries [es] at the times [ts] into [name], at
    capacity [k], and the records they append. *)
Definition insert_calls (name : string) (k : Z) (es : list jvalue) (ts : list Z) : list call :=
  zip_with (fun e t => CallAddArrayEntry name e (Some k) true t) es ts.

Definition fresh_records (es : list jvalue) (ts : list Z) : list record :=
  zip_with (fun e t => mkRecord e t 1) es ts.

(** [h] comes first and is least under [le] among the records of the
    list. *)
Definition least_first (le : record -> record -> Prop) (l : list record) : Prop :=
  match l with
  | [] => True
  | h :: t => forall z, z ∈ t -> le h z
  end.

(** The records a read of [name] starts from. *)
Definition view (st : store) (name : string) : list record := (load st name).1.

(** Whether [_canAdd] lets an entry in ([None]: it throws). *)
Definition can_add (e : jvalue) : option bool :=
  match e with
  | JUndefined | JNull => Some false
  | JStr s => Some (negb (String.eqb s ""))
  | JArr _ => None
  | _ => Some true
  end.

(** Recency and frequency orders, as the comparators read them. *)
Definition le_recency (x y : record) : Prop := time x <= time y.

Definition le_frequency (x y : record) : Prop :=
  count x < count y \/ (count x = count y /\ time x <= time y).

(** Induction over [jvalue] with the hypothesis for the elements of
    arrays and for the property values of objects. *)
Fixpoint jvalue_nested_ind (P : jvalue -> Prop)
    (Hu : P JUndefined) (Hn : P JNull) (Hb : forall b, P (JBool b))
    (Hz : forall z, P (JNum z)) (Hs : forall s, P (JStr s))
    (Ha : forall xs, Forall P xs -> P (JArr xs))
    (Ho : forall fs, Forall (fun kv => P kv.2) fs -> P (JObj fs))
    (v : jvalue) {struct v} : P v :=
  match v with
  | JUndefined => Hu
  | JNull => Hn
  | JBool b => Hb b
  | JNum z => Hz z
  | JStr s => Hs s
  | JArr xs =>
      Ha xs ((fix go (xs : list jvalue) : Forall P xs :=
                match xs with
                | [] => @List.Forall_nil _ P
                | x :: xs' => @List.Forall_cons _ P x xs'
                                (jvalue_nested_ind P Hu Hn Hb Hz Hs Ha Ho x) (go xs')
                end) xs)
  | JObj fs =>
      Ho fs ((fix go (fs : list (string * jvalue)) : Forall (fun kv => P kv.2) fs :=
                match fs with
                | [] => @List.Forall_nil _ (fun kv => P kv.2)
                | kv :: fs' => @List.Forall_cons _ (fun kv => P kv.2) kv fs'
                                 (jvalue_nested_ind P Hu Hn Hb Hz Hs Ha Ho kv.2) (go fs')
                end) fs)
  end.

(** The key [_incrementIfExists] compares records by. *)
Definition entry_key (r : record) : option string := json_stringify (entry r).

(** How many of the entries in [hist] stringify as [v] does. *)
Definition times_in (hist : list jvalue) (v : jvalue) : nat :=
  length (filter (fun e => json_stringify e = json_stringify v) hist).

(** The entries that the inserts of [cs] let in. *)
Fixpoint accepted_entries (cs : list call) : list jvalue :=
  match cs with
  | [] => []
  | c :: cs' =>
      match c with
      | CallAddArrayEntry _ e _ _ _ | CallAddArrayCountEntry _ e _ _ _ =>
          match can_add e with
          | Some true => e :: accepted_entries cs'
          | _ => accepted_entries cs'
          end
      | _ => accepted_entries cs'
      end
  end.

(** [c] is an insert on [name] with merging on ([increment] true). *)
Definition merge_insert_on (name : string) (c : call) : Prop :=
  match c with
  | CallAddArrayEntry n _ _ true _ | CallAddArrayCountEntry n _ _ true _ => n = name
  | _ => False
  end.

(** [c] is an insert with no capacity ([persistAmount] null). *)
Definition no_capacity (c : call) : Prop :=
  match c with
  | CallAddArrayEntry _ _ None _ _ | CallAddArrayCountEntry _ _ None _ _ => True
  | _ => False
  end.

(** What the inserts keep: distinct keys, each count at most the number
    of insertions of its entry, and, without capacity, exactly that
    number with every inserted entry present. *)
Definition merge_inv (nocap : bool) (hist : list jvalue) (V : list record) : Prop :=
  NoDup (map entry_key V) /\
  (forall r, r ∈ V -> count r <= Z.of_nat (times_in hist (entry r))) /\
  (nocap = true ->
     (forall r, r ∈ V -> count r = Z.of_nat (times_in hist (entry r))) /\
     (forall e, e ∈ hist -> exists r, r ∈ V /\ entry_key r = json_stringify e)).

(** [c] is an [addArrayEntry] or [addArrayCountEntry] call on [name]
    with capacity [k]. *)
Definition insert_on (name : string) (k : Z) (c : call) : Prop :=
  match c with
  | CallAddArrayEntry n _ (Some k') _ _ | CallAddArrayCountEntry n _ (Some k') _ _ =>
      n = name /\ k' = k
  | _ => False
  end.

(** Every array the store holds for [name] has at most [k] records. *)
Definition within_capacity (st : store) (name : string) (k : Z) : Prop :=
  (forall l, localPersistance st !! name = Some l -> Z.of_nat (length l) <= k) /\
  (forall l, files st !! name = Some l -> Z.of_nat (length l) <= k).

(** A new [StateManagement] over the same location: nothing in memory,
    the same files. *)
Definition restart (st : store) : store :=
  new_state_management (filePersistance st) (files st).

(** In file mode, every array held in memory is also in its file. *)
Definition mirrored (st : store) : Prop :=
  filePersistance st = true /\
  forall name l, localPersistance st !! name = Some l ->
                 files st !! name = Some (map record_roundtrip l).

(** A method that keeps the store [mirrored]. *)
Definition keeps_mirrored {A} (m : M A) : Prop :=
  forall st, mirrored st -> mirrored (m st).2.

(* ================================================================== *)
(** * Lemmas *)

Lemma getArrayEntries_raw (st : store) (name : string) :
  getArrayEntries name false false st = (Normal (Records (view st name)), st).
Proof. unfold getArrayEntries, view. by destruct (load st name). Qed.

Lemma _canAdd_store (e : jvalue) (st : store) : (_canAdd e st).2 = st.
Proof. unfold _canAdd. destruct (isNil e); [done|]. by destruct e. Qed.

Lemma _canAdd_can_add (e : jvalue) (st : store) :
  _canAdd e st = (match can_add e with Some b => Normal b | None => Thrown (ReferenceError "a is not defined") end, st).
Proof. by destruct e. Qed.

(** An insert, unfolded: [_canAdd], the read, the merge, the eviction
    and the write. *)
Lemma add_with_unfold (cmp : comparator) (name : string) (e : jvalue) (p : option Z)
    (i : bool) (now : Z) (st : store) :
  add_with cmp name e p i now st =
  match can_add e with
  | Some true => writeArrayEntries name (evict cmp p (merge_or_push i now (view st name) e)) st
  | Some false => (Normal tt, st)
  | None => (Thrown (ReferenceError "a is not defined"), st)
  end.
Proof.
  unfold add_with, bind at 1. rewrite _canAdd_can_add.
  destruct (can_add e) as [[|]|]; simpl; [|done|done].
  unfold bind. by rewrite getArrayEntries_raw.
Qed.

(** ** The sort *)

Section Sort.
Variable cmp : comparator.

Lemma insert_pivot_perm (x : record) (l : list record) :
  insert_pivot cmp x l ≡ₚ x :: l.
Proof.
  induction l as [|y l IH]; simpl; [done|].
  destruct (cmp x y <? 0); [|done].
  rewrite IH. apply perm_swap.
Qed.

Lemma sort_acc_perm (xs acc : list record) :
  fold_left (fun acc x => insert_pivot cmp x acc) xs acc ≡ₚ xs ++ acc.
Proof.
  revert acc. induction xs as [|x xs IH]; intros acc; simpl; [done|].
  rewrite IH, insert_pivot_perm. symmetry. apply Permutation_middle.
Qed.

Lemma js_sort_perm (xs : list record) : js_sort cmp xs ≡ₚ xs.
Proof.
  unfold js_sort. rewrite <- Permutation_rev, sort_acc_perm. by rewrite app_nil_r.
Qed.

Lemma js_sort_length (xs : list record) : length (js_sort cmp xs) = length xs.
Proof. apply Permutation_length, js_sort_perm. Qed.

(** A comparator that never returns a negative number leaves the
    array as it is. *)
Lemma js_sort_nonneg (xs : list record) :
  (forall a b, 0 <= cmp a b) -> js_sort cmp xs = xs.
Proof.
  intros Hnn. unfold js_sort.
  assert (Hins : forall x acc, insert_pivot cmp x acc = x :: acc).
  { intros x [|y acc]; simpl; [done|].
    destruct (Z.ltb_spec (cmp x y) 0) as [Hlt|]; [|done].
    specialize (Hnn x y). lia. }
  assert (Hfold : forall acc, fold_left (fun acc x => insert_pivot cmp x acc) xs acc
                              = rev xs ++ acc).
  { induction xs as [|x xs IH]; intros acc; simpl; [done|].
    rewrite Hins, IH, <- app_assoc. done. }
  rewrite Hfold, app_nil_r. apply rev_involutive.
Qed.

(** With [cmp] read as a total preorder [le] ([comparefn(x, y) >= 0]
    exactly when [le x y]), the last element of the sorted array is a
    least one. *)
Variable le : record -> record -> Prop.
Hypothesis cmp_le : forall x y, (cmp x y <? 0) = false <-> le x y.
Hypothesis le_total : forall x y, le x y \/ le y x.
Hypothesis le_trans : forall x y z, le x y -> le y z -> le x z.

Lemma insert_pivot_least (x : record) (l : list record) :
  least_first le l -> least_first le (insert_pivot cmp x l).
Proof.
  destruct l as [|h t]; simpl; [intros; set_solver|].
  intros Hmin. destruct (cmp x h <? 0) eqn:Hc; simpl.
  - assert (Hhx : le h x).
    { destruct (le_total h x) as [|Hxh]; [done|].
      apply cmp_le in Hxh. congruence. }
    intros z Hz. rewrite (insert_pivot_perm x t) in Hz.
    apply elem_of_cons in Hz as [->|Hz]; auto.
  - apply cmp_le in Hc. intros z Hz.
    apply elem_of_cons in Hz as [->|Hz]; eauto.
Qed.

Lemma sort_acc_least (xs acc : list record) :
  least_first le acc -> least_first le (fold_left (fun acc x => insert_pivot cmp x acc) xs acc).
Proof.
  revert acc. induction xs as [|x xs IH]; intros acc Hacc; simpl; [done|].
  apply IH, insert_pivot_least, Hacc.
Qed.

(** [content.sort(cmp); content.pop();] removes a least record. *)
Lemma sort_pop_least (c : list record) :
  c <> [] ->
  exists r, r :: js_pop (js_sort cmp c) ≡ₚ c /\
            forall z, z ∈ js_pop (js_sort cmp c) -> le r z.
Proof.
  intros Hne. unfold js_sort, js_pop.
  pose proof (sort_acc_least c [] I) as Hl.
  pose proof (sort_acc_perm c []) as Hp.
  destruct (fold_left (fun acc x => insert_pivot cmp x acc) c []) as [|h t] eqn:Hf.
  { rewrite app_nil_r in Hp. apply Permutation_nil in Hp. done. }
  exists h. simpl. rewrite removelast_last. split.
  - rewrite <- Permutation_rev, Hp. by rewrite app_nil_r.
  - intros z Hz. apply Hl. apply list_elem_of_In. apply list_elem_of_In in Hz. by apply in_rev.
Qed.
End Sort.

(** ** Merging and writing *)

Lemma same_entry_spec (a b : jvalue) :
  same_entry a b = true <-> json_stringify a = json_stringify b.
Proof.
  unfold same_entry.
  destruct (json_stringify a) as [s|], (json_stringify b) as [t|]; split; intros H;
    try done; try congruence.
  - apply String.eqb_eq in H. by subst.
  - apply String.eqb_eq. congruence.
Qed.

Lemma incrementIfExists_length (now : Z) (c c' : list record) (e : jvalue) :
  _incrementIfExists now c e = Some c' -> length c' = length c /\ c <> [].
Proof.
  revert c'. induction c as [|r c IH]; intros c' H; simpl in H; [done|].
  destruct (same_entry (entry r) e).
  - injection H as <-. done.
  - destruct (_incrementIfExists now c e) as [c''|] eqn:E; simpl in H; [|done].
    injection H as <-. destruct (IH c'' eq_refl). simpl. split; [lia|done].
Qed.

Lemma incrementIfExists_none (now : Z) (c : list record) (e : jvalue) :
  (forall r, r ∈ c -> json_stringify (entry r) <> json_stringify e) ->
  _incrementIfExists now c e = None.
Proof.
  induction c as [|r c IH]; intros Hne; simpl; [done|].
  destruct (same_entry (entry r) e) eqn:Hs.
  - apply same_entry_spec in Hs. exfalso. eapply Hne; [left|]; done.
  - rewrite IH; [done|]. intros r' Hr'. apply Hne. by right.
Qed.

Lemma merge_or_push_length (i : bool) (now : Z) (c : list record) (e : jvalue) :
  (length (merge_or_push i now c e) <= S (length c))%nat /\
  merge_or_push i now c e <> [].
Proof.
  unfold merge_or_push.
  destruct (if i then _incrementIfExists now c e else None) as [c'|] eqn:E.
  - destruct i; [|done]. apply incrementIfExists_length in E as [Hl Hne].
    split; [lia|]. intros ->. destruct c; done.
  - rewrite length_app. simpl. split; [lia|]. destruct c; done.
Qed.

Lemma evict_length (cmp : comparator) (k : Z) (c : list record) :
  length (evict cmp (Some k) c) =
  if k <? Z.of_nat (length c) then pred (length c) else length c.
Proof.
  unfold evict. destruct (k <? Z.of_nat (length c)); [|done].
  unfold js_pop. rewrite removelast_firstn_len, length_firstn, js_sort_length. lia.
Qed.

Lemma writeArrayEntries_store (name : string) (c : list record) (st : store) :
  store_after (writeArrayEntries name c) st =
  mkStore (filePersistance st) (<[name := c]> (localPersistance st))
          (if filePersistance st then <[name := map record_roundtrip c]> (files st) else files st).
Proof. reflexivity. Qed.

Lemma view_write_same (name : string) (c : list record) (st : store) :
  view (store_after (writeArrayEntries name c) st) name =
  if filePersistance st then map record_roundtrip c else c.
Proof.
  rewrite writeArrayEntries_store. unfold view, load; simpl.
  destruct (filePersistance st); simpl; by rewrite lookup_insert_eq.
Qed.

Lemma view_write_other (name name' : string) (c : list record) (st : store) :
  name <> name' ->
  view (store_after (writeArrayEntries name c) st) name' = view st name'.
Proof.
  intros Hne. rewrite writeArrayEntries_store. unfold view, load; simpl.
  rewrite lookup_insert_ne by done.
  destruct (filePersistance st); simpl; [|done]. by rewrite lookup_insert_ne.
Qed.

Lemma add_with_file_flag (cmp : comparator) (name : string) (e : jvalue) (p : option Z)
    (i : bool) (now : Z) (st : store) :
  filePersistance (store_after (add_with cmp name e p i now) st) = filePersistance st.
Proof.
  unfold store_after. rewrite add_with_unfold. by destruct (can_add e) as [[|]|].
Qed.

Lemma cmp_recency_le (x y : record) : (cmp_recency x y <? 0) = false <-> le_recency x y.
Proof. unfold cmp_recency, le_recency. rewrite Z.ltb_ge. lia. Qed.

Lemma cmp_frequency_le (x y : record) : (cmp_frequency x y <? 0) = false <-> le_frequency x y.
Proof.
  unfold cmp_frequency, le_frequency. rewrite Z.ltb_ge.
  destruct (Z.eqb_spec (count x) (count y)); lia.
Qed.

(** The record an over-capacity insert drops: the store keeps [rest],
    and [r] is the dropped record, least for the comparator's order. *)
Lemma add_with_evicts (cmp : comparator) (le : record -> record -> Prop)
    (Hle : forall x y, (cmp x y <? 0) = false <-> le x y)
    (Htot : forall x y, le x y \/ le y x)
    (Htrans : forall x y z, le x y -> le y z -> le x z)
    (st : store) (name : string) (e : jvalue) (k : Z) (i : bool) (now : Z) :
  can_add e = Some true ->
  k < Z.of_nat (length (merge_or_push i now (view st name) e)) ->
  exists r rest,
    localPersistance (store_after (add_with cmp name e (Some k) i now) st) !! name = Some rest /\
    r :: rest ≡ₚ merge_or_push i now (view st name) e /\
    forall z, z ∈ rest -> le r z.
Proof.
  intros Hcan Hk. unfold store_after. rewrite add_with_unfold, Hcan. simpl.
  rewrite lookup_insert_eq. unfold evict.
  apply Z.ltb_lt in Hk. rewrite Hk.
  destruct (sort_pop_least cmp le Hle Htot Htrans (merge_or_push i now (view st name) e))
    as [r [Hp Hmin]].
  { apply merge_or_push_length. }
  exists r, (js_pop (js_sort cmp (merge_or_push i now (view st name) e))). done.
Qed.

Lemma run_calls_app (cs1 cs2 : list call) (st : store) :
  run_calls (cs1 ++ cs2) st = run_calls cs2 (run_calls cs1 st).
Proof. revert st. induction cs1 as [|c cs1 IH]; intros st; simpl; [done|]. apply IH. Qed.

(** ** Inserting distinct entries into a fresh collection *)

Section FreshInserts.
Variable name : string.
Variable k : Z.

Lemma fresh_records_times (t0 : Z) (es : list jvalue) (ts : list Z) :
  Forall (fun t => t0 < t) ts -> Forall (fun z => t0 < time z) (fresh_records es ts).
Proof.
  revert ts. induction es as [|e es IH]; intros [|t ts] Hts; simpl; try constructor.
  - by inversion Hts.
  - apply IH. by inversion Hts.
Qed.

(** Below capacity, with entries that [_canAdd] accepts and that are
    pairwise distinct, every insert appends a record. *)
Lemma insert_calls_append (es : list jvalue) (ts : list Z) (acc : list record) (st : store) :
  filePersistance st = false ->
  view st name = acc ->
  length es = length ts ->
  (length acc + length es <= Z.to_nat k)%nat ->
  NoDup (map (fun r => json_stringify (entry r)) acc ++ map json_stringify es) ->
  Forall (fun e => can_add e = Some true) es ->
  filePersistance (run_calls (insert_calls name k es ts) st) = false /\
  view (run_calls (insert_calls name k es ts) st) name = acc ++ fresh_records es ts.
Proof.
  revert ts acc st. induction es as [|e es IH];
    intros [|t ts] acc st Hfp Hv Hlen Hk Hnd Hcan; simpl in *; try done.
  { by rewrite app_nil_r. }
  inversion Hcan as [|? ? He Hes]; subst.
  assert (Hnone : _incrementIfExists t (view st name) e = None).
  { apply incrementIfExists_none. intros r Hr Heq.
    apply NoDup_app in Hnd as (_ & Hdis & _).
    apply (Hdis (json_stringify e)); [|by left].
    apply list_elem_of_fmap. exists r. done. }
  set (st1 := store_after (addArrayEntry name e (Some k) true t) st).
  assert (Hst1 : filePersistance st1 = false /\
                 view st1 name = view st name ++ [mkRecord e t 1]).
  { unfold st1, addArrayEntry.
    split; [by rewrite add_with_file_flag|].
    unfold store_after. rewrite add_with_unfold, He.
    change (view (store_after (writeArrayEntries name
      (evict cmp_recency (Some k) (merge_or_push true t (view st name) e))) st) name =
      view st name ++ [mkRecord e t 1]).
    rewrite view_write_same, Hfp. unfold merge_or_push. rewrite Hnone.
    unfold evict. rewrite length_app. simpl.
    destruct (Z.ltb_spec k (Z.of_nat (length (view st name) + 1))); [lia|done]. }
  destruct Hst1 as [Hf1 Hv1].
  destruct (IH ts (view st name ++ [mkRecord e t 1]) st1) as [IH1 IH2]; try done.
  - lia.
  - rewrite length_app. simpl in *. lia.
  - rewrite map_app, <- app_assoc. simpl. done.
  - split; [exact IH1|]. etransitivity; [exact IH2|]. by rewrite <- app_assoc.
Qed.
End FreshInserts.

Lemma least_is_first (r r0 : record) (others rest : list record) :
  r :: rest ≡ₚ r0 :: others ->
  Forall (fun z => time r0 < time z) others ->
  (forall z, z ∈ rest -> time r <= time z) ->
  rest ≡ₚ others.
Proof.
  intros Hp Hlt Hmin. rewrite Forall_forall in Hlt.
  assert (r ∈ r0 :: others) as Hr by (rewrite <- Hp; left).
  apply elem_of_cons in Hr as [->|Hr].
  { by apply Permutation_cons_inv in Hp. }
  exfalso.
  pose proof (Hlt r Hr) as H1.
  assert (r0 ∈ r :: rest) as Hr0 by (rewrite Hp; left).
  apply elem_of_cons in Hr0 as [->|Hr0]; [lia|].
  specialize (Hmin r0 Hr0). lia.
Qed.

Lemma json_stringify_roundtrip (v : jvalue) :
  json_stringify (json_roundtrip v) = json_stringify v.
Proof.
  induction v as [| | b | z | s | xs IH | fs IH] using jvalue_nested_ind; try reflexivity.
  - cbn [json_roundtrip json_stringify]. do 4 f_equal. rewrite map_map.
    induction IH as [|x xs Hx _ IHl]; [reflexivity|]. cbn [map].
    f_equal; [|apply IHl]. destruct x; try reflexivity; rewrite Hx; reflexivity.
  - cbn [json_roundtrip json_stringify]. do 4 f_equal.
    induction IH as [|[k x] fs Hx _ IHf]; [reflexivity|]. simpl in Hx.
    destruct x as [| | [] | z | s | ys | gs]; simpl in Hx |- *;
      try (f_equal; apply IHf); try apply IHf.
    + injection Hx as Hx. rewrite Hx. f_equal. apply IHf.
    + injection Hx as Hx. rewrite Hx. f_equal. apply IHf.
Qed.

(** ** Merging keeps one record per entry *)

Lemma times_in_app (h1 h2 : list jvalue) (v : jvalue) :
  times_in (h1 ++ h2) v = (times_in h1 v + times_in h2 v)%nat.
Proof. unfold times_in. by rewrite filter_app, length_app. Qed.

Lemma times_in_single_eq (e v : jvalue) :
  json_stringify e = json_stringify v -> times_in [e] v = 1%nat.
Proof. intros H. unfold times_in. rewrite filter_cons_True by exact H. by rewrite filter_nil. Qed.

Lemma times_in_single_ne (e v : jvalue) :
  json_stringify e <> json_stringify v -> times_in [e] v = 0%nat.
Proof. intros H. unfold times_in. rewrite filter_cons_False by exact H. by rewrite filter_nil. Qed.

Lemma times_in_same (hist : list jvalue) (v w : jvalue) :
  json_stringify v = json_stringify w -> times_in hist v = times_in hist w.
Proof. intros H. unfold times_in. by rewrite H. Qed.

Lemma times_in_zero (hist : list jvalue) (v : jvalue) :
  (forall e, e ∈ hist -> json_stringify e <> json_stringify v) -> times_in hist v = 0%nat.
Proof.
  unfold times_in. induction hist as [|e hist IH]; intros H; [done|].
  rewrite filter_cons_False.
  - apply IH. intros e' He'. apply H. by right.
  - apply H. left.
Qed.

Lemma incrementIfExists_some (now : Z) (V V' : list record) (e : jvalue) :
  _incrementIfExists now V e = Some V' ->
  exists A r0 B, V = A ++ r0 :: B /\ V' = A ++ _incrementEntry now r0 :: B /\
                 entry_key r0 = json_stringify e.
Proof.
  revert V'. induction V as [|r V IH]; intros V' H; simpl in H; [done|].
  destruct (same_entry (entry r) e) eqn:Hs.
  - injection H as <-. exists [], r, V. apply same_entry_spec in Hs. done.
  - destruct (_incrementIfExists now V e) as [V''|] eqn:E; simpl in H; [|done].
    injection H as <-. destruct (IH V'' eq_refl) as (A & r0 & B & -> & -> & Hk).
    exists (r :: A), r0, B. done.
Qed.

Lemma incrementIfExists_none_keys (now : Z) (V : list record) (e : jvalue) :
  _incrementIfExists now V e = None ->
  forall r, r ∈ V -> entry_key r <> json_stringify e.
Proof.
  induction V as [|r V IH]; intros H r' Hr'; simpl in H; [by apply elem_of_nil in Hr'|].
  destruct (same_entry (entry r) e) eqn:Hs; [done|].
  destruct (_incrementIfExists now V e) eqn:E; simpl in H; [done|].
  apply elem_of_cons in Hr' as [->|Hr'].
  - intros Hk. apply same_entry_spec in Hk. congruence.
  - by apply IH.
Qed.

Lemma merge_inv_perm (nocap : bool) (hist : list jvalue) (V W : list record) :
  V ≡ₚ W -> merge_inv nocap hist V -> merge_inv nocap hist W.
Proof.
  intros Hp (Hnd & Hle & Heq). split; [|split].
  - by rewrite <- Hp.
  - intros r Hr. apply Hle. by rewrite Hp.
  - intros Hn. destruct (Heq Hn) as [Hc Hall]. split.
    + intros r Hr. apply Hc. by rewrite Hp.
    + intros e He. destruct (Hall e He) as (r & Hr & Hk). exists r. by rewrite <- Hp.
Qed.

Lemma merge_inv_drop (hist : list jvalue) (r : record) (W : list record) :
  merge_inv false hist (r :: W) -> merge_inv false hist W.
Proof.
  intros (Hnd & Hle & _). split; [|split].
  - simpl in Hnd. by apply NoDup_cons in Hnd as [_ ?].
  - intros z Hz. apply Hle. by right.
  - done.
Qed.

Lemma merge_inv_roundtrip (nocap : bool) (hist : list jvalue) (V : list record) :
  merge_inv nocap hist V -> merge_inv nocap hist (map record_roundtrip V).
Proof.
  assert (Hkey : forall r, entry_key (record_roundtrip r) = entry_key r).
  { intros r. apply json_stringify_roundtrip. }
  assert (Hcnt : forall r, times_in hist (entry (record_roundtrip r)) = times_in hist (entry r)).
  { intros r. apply times_in_same, json_stringify_roundtrip. }
  intros (Hnd & Hle & Heq). split; [|split].
  - rewrite map_map. erewrite map_ext; [exact Hnd|]. apply Hkey.
  - intros r Hr. apply list_elem_of_fmap in Hr as (r0 & -> & Hr0).
    rewrite Hcnt. change (count (record_roundtrip r0)) with (count r0). apply Hle, Hr0.
  - intros Hn. destruct (Heq Hn) as [Hc Hall]. split.
    + intros r Hr. apply list_elem_of_fmap in Hr as (r0 & -> & Hr0).
      rewrite Hcnt. change (count (record_roundtrip r0)) with (count r0). apply Hc, Hr0.
    + intros e He. destruct (Hall e He) as (r & Hr & Hk).
      exists (record_roundtrip r). split; [|by rewrite Hkey].
      apply list_elem_of_fmap. eauto.
Qed.

Lemma merge_inv_keys_ne (hist : list jvalue) (r0 : record) (W : list record) (r : record) :
  NoDup (map entry_key (r0 :: W)) -> r ∈ W -> entry_key r <> entry_key r0.
Proof.
  intros Hnd Hr Hk. simpl in Hnd. apply NoDup_cons in Hnd as [Hn _].
  apply Hn. rewrite <- Hk. apply list_elem_of_fmap. eauto.
Qed.

Lemma merge_inv_increment (nocap : bool) (hist : list jvalue) (now : Z) (e : jvalue)
    (r0 : record) (W : list record) :
  entry_key r0 = json_stringify e ->
  merge_inv nocap hist (r0 :: W) ->
  merge_inv nocap (hist ++ [e]) (_incrementEntry now r0 :: W).
Proof.
  intros Hk0 (Hnd & Hle & Heq).
  assert (Hin : forall r, r ∈ W -> times_in [e] (entry r) = 0%nat).
  { intros r Hr. apply times_in_single_ne. rewrite <- Hk0.
    intros Hk. apply (merge_inv_keys_ne hist r0 W r Hnd Hr). done. }
  assert (H1 : times_in [e] (entry r0) = 1%nat).
  { apply times_in_single_eq. by rewrite <- Hk0. }
  split; [|split].
  - exact Hnd.
  - intros r Hr. rewrite times_in_app. apply elem_of_cons in Hr as [->|Hr].
    + simpl. rewrite H1. specialize (Hle r0 ltac:(left)). lia.
    + rewrite Hin by done. specialize (Hle r ltac:(by right)). lia.
  - intros Hn. destruct (Heq Hn) as [Hc Hall]. split.
    + intros r Hr. rewrite times_in_app. apply elem_of_cons in Hr as [->|Hr].
      * simpl. rewrite H1. specialize (Hc r0 ltac:(left)). lia.
      * rewrite Hin by done. specialize (Hc r ltac:(by right)). lia.
    + intros e' He'. apply elem_of_app in He' as [He'|He'].
      * destruct (Hall e' He') as (r & Hr & Hk). apply elem_of_cons in Hr as [->|Hr].
        -- exists (_incrementEntry now r0). split; [left|exact Hk].
        -- exists r. split; [by right|exact Hk].
      * apply list_elem_of_singleton in He' as ->.
        exists (_incrementEntry now r0). split; [left|exact Hk0].
Qed.

Lemma merge_inv_push (nocap : bool) (hist : list jvalue) (now : Z) (e : jvalue)
    (W : list record) :
  (forall r, r ∈ W -> entry_key r <> json_stringify e) ->
  merge_inv nocap hist W ->
  merge_inv nocap (hist ++ [e]) (mkRecord e now 1 :: W).
Proof.
  intros Hne (Hnd & Hle & Heq).
  assert (Hin : forall r, r ∈ W -> times_in [e] (entry r) = 0%nat).
  { intros r Hr. apply times_in_single_ne. intros Hs. by apply (Hne r Hr). }
  assert (H1 : times_in [e] e = 1%nat) by by apply times_in_single_eq.
  split; [|split].
  - simpl. apply NoDup_cons. split; [|exact Hnd].
    intros Hk. apply list_elem_of_fmap in Hk as (r & Hk & Hr).
    apply (Hne r Hr). by rewrite <- Hk.
  - intros r Hr. rewrite times_in_app. apply elem_of_cons in Hr as [->|Hr].
    + simpl. rewrite H1. lia.
    + rewrite Hin by done. specialize (Hle r Hr). lia.
  - intros Hn. destruct (Heq Hn) as [Hc Hall]. split.
    + intros r Hr. rewrite times_in_app. apply elem_of_cons in Hr as [->|Hr].
      * simpl. rewrite H1. rewrite times_in_zero; [lia|].
        intros e' He' Hs. destruct (Hall e' He') as (r & Hr & Hk).
        apply (Hne r Hr). by rewrite Hk.
      * rewrite Hin by done. specialize (Hc r Hr). lia.
    + intros e' He'. apply elem_of_app in He' as [He'|He'].
      * destruct (Hall e' He') as (r & Hr & Hk). exists r. split; [by right|exact Hk].
      * apply list_elem_of_singleton in He' as ->.
        exists (mkRecord e now 1). split; [left|done].
Qed.

Lemma merge_inv_merge_or_push (nocap : bool) (hist : list jvalue) (now : Z) (e : jvalue)
    (V : list record) :
  merge_inv nocap hist V -> merge_inv nocap (hist ++ [e]) (merge_or_push true now V e).
Proof.
  intros Hinv. unfold merge_or_push.
  destruct (_incrementIfExists now V e) as [V'|] eqn:E.
  - destruct (incrementIfExists_some now V V' e E) as (A & r0 & B & -> & -> & Hk).
    apply (merge_inv_perm _ _ (_incrementEntry now r0 :: A ++ B)); [apply Permutation_middle|].
    apply merge_inv_increment; [exact Hk|].
    apply (merge_inv_perm _ _ (A ++ r0 :: B)); [symmetry; apply Permutation_middle|exact Hinv].
  - apply (merge_inv_perm _ _ (mkRecord e now 1 :: V)).
    { rewrite Permutation_app_comm. done. }
    apply merge_inv_push; [|exact Hinv].
    by apply (incrementIfExists_none_keys now).
Qed.

Lemma js_pop_perm (l : list record) : l <> [] -> exists r, l ≡ₚ r :: js_pop l.
Proof.
  intros Hl. destruct (exists_last Hl) as (l' & x & ->). exists x.
  unfold js_pop. rewrite removelast_last. rewrite Permutation_app_comm. done.
Qed.

Lemma merge_inv_evict (nocap : bool) (hist : list jvalue) (cmp : comparator)
    (p : option Z) (V : list record) :
  (nocap = true -> p = None) ->
  merge_inv nocap hist V -> merge_inv nocap hist (evict cmp p V).
Proof.
  intros Hp Hinv. destruct p as [k|]; simpl; [|exact Hinv].
  destruct nocap; [by discriminate Hp|].
  destruct (k <? Z.of_nat (length V)); [|exact Hinv].
  destruct (js_sort cmp V) as [|r rs] eqn:E.
  { split; [constructor|split; [|done]]. intros r Hr. by apply elem_of_nil in Hr. }
  destruct (js_pop_perm (r :: rs)) as (x & Hx); [done|].
  apply (merge_inv_drop hist x). apply (merge_inv_perm _ _ V); [|exact Hinv].
  rewrite <- Hx, <- E. symmetry. apply js_sort_perm.
Qed.

Lemma merge_inv_add_with (nocap : bool) (hist : list jvalue) (cmp : comparator)
    (name : string) (e : jvalue) (p : option Z) (now : Z) (st : store) :
  (nocap = true -> p = None) ->
  merge_inv nocap hist (view st name) ->
  merge_inv nocap (hist ++ match can_add e with Some true => [e] | _ => [] end)
    (view (store_after (add_with cmp name e p true now) st) name).
Proof.
  intros Hp Hinv. unfold store_after. rewrite add_with_unfold.
  destruct (can_add e) as [[|]|]; [|by rewrite app_nil_r|by rewrite app_nil_r].
  pose proof (view_write_same name (evict cmp p (merge_or_push true now (view st name) e)) st)
    as Hw. unfold store_after in Hw. rewrite Hw.
  assert (H : merge_inv nocap (hist ++ [e])
                (evict cmp p (merge_or_push true now (view st name) e))).
  { apply merge_inv_evict; [exact Hp|]. by apply merge_inv_merge_or_push. }
  destruct (filePersistance st); [by apply merge_inv_roundtrip|exact H].
Qed.

Lemma merge_inv_run_calls (nocap : bool) (hist : list jvalue) (name : string)
    (cs : list call) (st : store) :
  Forall (merge_insert_on name) cs ->
  (nocap = true -> Forall no_capacity cs) ->
  merge_inv nocap hist (view st name) ->
  merge_inv nocap (hist ++ accepted_entries cs) (view (run_calls cs st) name).
Proof.
  revert hist st. induction cs as [|c cs IH]; intros hist st Hon Hcap Hinv.
  { simpl. by rewrite app_nil_r. }
  apply Forall_cons in Hon as [Hc Hon].
  assert (Hcap' : nocap = true -> Forall no_capacity cs).
  { intros Hn. specialize (Hcap Hn). by apply Forall_cons in Hcap as [_ ?]. }
  destruct c as [n e p [|] now|n e p [|] now| | | | | |]; simpl in Hc; try done; subst n;
    (replace (hist ++ accepted_entries _)
       with ((hist ++ match can_add e with Some true => [e] | _ => [] end) ++ accepted_entries cs)
       by (simpl; destruct (can_add e) as [[|]|]; simpl; by rewrite <- ?app_assoc));
    (apply IH; [exact Hon|exact Hcap'|]);
    (apply merge_inv_add_with; [|exact Hinv]);
    intros Hn; specialize (Hcap Hn); apply Forall_cons in Hcap as [Hnc _];
    destruct p; done.
Qed.

(* ================================================================== *)
(** * Claims *)

(** C5. Recency eviction: when [addArrayEntry] goes over its capacity
    [k], the record it drops has the smallest timestamp among the
    records it held; and inserting [k+1] distinct entries with strictly
    increasing timestamps into a fresh capacity-[k] collection drops the
    first inserted and keeps the [k] most recent. *)
Theorem addArrayEntry_recency_eviction :
  (forall (st : store) (name : string) (e : jvalue) (k : Z) (i : bool) (now : Z),
     can_add e = Some true ->
     k < Z.of_nat (length (merge_or_push i now (view st name) e)) ->
     exists r rest,
       localPersistance (store_after (addArrayEntry name e (Some k) i now) st) !! name = Some rest /\
       r :: rest ≡ₚ merge_or_push i now (view st name) e /\
       forall z, z ∈ rest -> time r <= time z) /\
  (forall (st : store) (name : string) (k : Z) (es : list jvalue) (ts : list Z),
     filePersistance st = false ->
     localPersistance st !! name = None ->
     0 <= k ->
     length es = S (Z.to_nat k) ->
     length ts = length es ->
     StronglySorted Z.lt ts ->
     NoDup (map json_stringify es) ->
     Forall (fun e => can_add e = Some true) es ->
     exists rest,
       localPersistance (run_calls (insert_calls name k es ts) st) !! name = Some rest /\
       rest ≡ₚ tail (fresh_records es ts)).
Proof.
  assert (Hgen : forall (st : store) (name : string) (e : jvalue) (k : Z) (i : bool) (now : Z),
     can_add e = Some true ->
     k < Z.of_nat (length (merge_or_push i now (view st name) e)) ->
     exists r rest,
       localPersistance (store_after (addArrayEntry name e (Some k) i now) st) !! name = Some rest /\
       r :: rest ≡ₚ merge_or_push i now (view st name) e /\
       forall z, z ∈ rest -> time r <= time z).
  { intros st name e k i now. apply (add_with_evicts cmp_recency le_recency).
    - apply cmp_recency_le.
    - intros x y. unfold le_recency. lia.
    - intros x y z. unfold le_recency. lia. }
  split; [exact Hgen|].
  intros st name k es ts Hfp Hnone Hk Hlen Hlts Hsort Hnd Hcan.
  destruct (exists_last (l := es)) as [es0 [el ->]].
  { intros ->. done. }
  destruct (exists_last (l := ts)) as [ts0 [tl ->]].
  { intros ->. rewrite length_app in Hlts. simpl in Hlts. lia. }
  repeat rewrite length_app in Hlts. rewrite length_app in Hlen. simpl in Hlts, Hlen.
  assert (Hl0 : length es0 = length ts0) by lia.
  unfold insert_calls. rewrite zip_with_app by done. rewrite run_calls_app.
  apply Forall_app in Hcan as [Hcan0 Hcanl]. inversion Hcanl as [|? ? Hcl _]; subst.
  rewrite map_app in Hnd.
  destruct (insert_calls_append name k es0 ts0 [] st) as [Hf1 Hv1]; try done.
  { unfold view, load. by rewrite Hfp, Hnone. }
  { simpl. lia. }
  { by apply NoDup_app in Hnd as (Hnd & _ & _). }
  set (st1 := run_calls (insert_calls name k es0 ts0) st) in *.
  simpl in Hv1.
  assert (Hmp : merge_or_push true tl (view st1 name) el =
                fresh_records es0 ts0 ++ [mkRecord el tl 1]).
  { unfold merge_or_push. rewrite Hv1, incrementIfExists_none; [done|].
    intros r Hr Heq. apply NoDup_app in Hnd as (_ & Hdis & _).
    apply (Hdis (json_stringify el)); [|by left].
    clear -Hr Heq. revert ts0 Hr. induction es0 as [|e es IH]; intros [|t ts] Hr;
      simpl in Hr; try by apply elem_of_nil in Hr.
    apply elem_of_cons in Hr as [->|Hr]; simpl in *.
    - rewrite <- Heq. left.
    - right. by apply (IH ts). }
  destruct (Hgen st1 name el k true tl Hcl) as (r & rest & Hloc & Hp & Hmin).
  { rewrite Hmp, length_app. unfold fresh_records. rewrite length_zip_with. simpl. lia. }
  exists rest. simpl. split; [exact Hloc|].
  rewrite Hmp in Hp.
  assert (Hfr : fresh_records es0 ts0 ++ [mkRecord el tl 1] = fresh_records (es0 ++ [el]) (ts0 ++ [tl])).
  { unfold fresh_records. by rewrite zip_with_app. }
  rewrite Hfr in Hp.
  destruct es0 as [|e0 es0'], ts0 as [|t0 ts0']; simpl in Hl0; try lia.
  - simpl in *. symmetry in Hp. apply Permutation_singleton_l in Hp. injection Hp as _ ->. done.
  - simpl in Hp |- *. eapply least_is_first; [exact Hp| |exact Hmin].
    apply StronglySorted_inv in Hsort as [_ Hall].
    apply (fresh_records_times t0 (es0' ++ [el]) (ts0' ++ [tl])). done.
Qed.

(** Example of the second half: capacity 2, three paths inserted at
    1, 2, 3 ms; the first one is dropped. *)
Lemma addArrayEntry_recency_eviction_witness :
  exists rest,
    localPersistance (run_calls (insert_calls "paths" 2
       [JStr "/img/1/1"; JStr "/img/2/2"; JStr "/img/3/3"] [1; 2; 3])
       (new_state_management false ∅)) !! "paths" = Some rest /\
    rest ≡ₚ tail (fresh_records [JStr "/img/1/1"; JStr "/img/2/2"; JStr "/img/3/3"] [1; 2; 3]).
Proof.
  apply (proj2 addArrayEntry_recency_eviction); try reflexivity; try lia.
  - repeat constructor; lia.
  - apply (bool_decide_unpack _). vm_compute. reflexivity.
  - repeat constructor.
Defined.

(** C4. Frequency eviction: when [addArrayCountEntry] goes over its
    capacity, the record it drops has the smallest count, and among the
    records with that count the smallest timestamp; with counts
    [1, 1, 5] at capacity 2 the older count-1 record is dropped and the
    count-5 record kept. *)
Theorem addArrayCountEntry_frequency_eviction :
  (forall (st : store) (name : string) (e : jvalue) (k : Z) (i : bool) (now : Z),
     can_add e = Some true ->
     k < Z.of_nat (length (merge_or_push i now (view st name) e)) ->
     exists r rest,
       localPersistance (store_after (addArrayCountEntry name e (Some k) i now) st) !! name = Some rest /\
       r :: rest ≡ₚ merge_or_push i now (view st name) e /\
       (forall z, z ∈ rest -> count r <= count z) /\
       (forall z, z ∈ rest -> count z = count r -> time r <= time z)) /\
  (forall (st : store) (name : string) (e : jvalue) (i : bool) (now : Z) (a b c : record),
     can_add e = Some true ->
     merge_or_push i now (view st name) e ≡ₚ [a; b; c] ->
     count a = 1 -> count b = 1 -> count c = 5 -> time a < time b ->
     exists rest,
       localPersistance (store_after (addArrayCountEntry name e (Some 2) i now) st) !! name = Some rest /\
       rest ≡ₚ [b; c]).
Proof.
  assert (Hgen : forall (st : store) (name : string) (e : jvalue) (k : Z) (i : bool) (now : Z),
     can_add e = Some true ->
     k < Z.of_nat (length (merge_or_push i now (view st name) e)) ->
     exists r rest,
       localPersistance (store_after (addArrayCountEntry name e (Some k) i now) st) !! name = Some rest /\
       r :: rest ≡ₚ merge_or_push i now (view st name) e /\
       forall z, z ∈ rest -> le_frequency r z).
  { intros st name e k i now. apply (add_with_evicts cmp_frequency le_frequency).
    - apply cmp_frequency_le.
    - intros x y. unfold le_frequency. lia.
    - intros x y z. unfold le_frequency. lia. }
  split.
  - intros st name e k i now Hcan Hk.
    destruct (Hgen st name e k i now Hcan Hk) as (r & rest & Hloc & Hp & Hmin).
    exists r, rest. split; [done|]. split; [done|].
    split; intros z Hz; specialize (Hmin z Hz); unfold le_frequency in Hmin; lia.
  - intros st name e i now a b c Hcan Hp3 Ha Hb Hc Hab.
    destruct (Hgen st name e 2 i now Hcan) as (r & rest & Hloc & Hp & Hmin).
    { rewrite (Permutation_length Hp3). simpl. lia. }
    exists rest. split; [done|].
    rewrite Hp3 in Hp.
    assert (Hr : r ∈ [a; b; c]) by (rewrite <- Hp; left).
    assert (Ha' : a ∈ r :: rest) by (rewrite Hp; left).
    apply elem_of_cons in Hr as [->|Hr].
    + by apply Permutation_cons_inv in Hp.
    + exfalso. apply elem_of_cons in Ha' as [Har|Ha'].
      * subst a. apply elem_of_cons in Hr as [->|Hr]; [lia|].
        apply list_elem_of_singleton in Hr. subst. lia.
      * specialize (Hmin a Ha'). unfold le_frequency in Hmin.
        apply elem_of_cons in Hr as [->|Hr]; [lia|].
        apply list_elem_of_singleton in Hr. subst. lia.
Qed.

(** Example of the second half: stored [a] (count 1) and [big] (count 5)
    at capacity 2, a new path is inserted; the older count-1 record
    [a] is dropped. *)
Lemma addArrayCountEntry_frequency_eviction_witness :
  exists rest,
    localPersistance (store_after (addArrayCountEntry "references" (JStr "c") (Some 2) true 30)
      (mkStore false (<["references" := [mkRecord (JStr "a") 10 1; mkRecord (JStr "big") 20 5]]> ∅) ∅))
      !! "references" = Some rest /\
    rest ≡ₚ [mkRecord (JStr "c") 30 1; mkRecord (JStr "big") 20 5].
Proof.
  apply (proj2 addArrayCountEntry_frequency_eviction
           _ _ _ _ _ (mkRecord (JStr "a") 10 1) (mkRecord (JStr "c") 30 1) (mkRecord (JStr "big") 20 5));
    try reflexivity; try (simpl; lia).
  vm_compute. apply perm_skip, perm_swap.
Defined.

Lemma within_capacity_view (st : store) (name : string) (k : Z) :
  0 <= k -> within_capacity st name k -> Z.of_nat (length (view st name)) <= k.
Proof.
  intros Hk [Hl Hf]. unfold view, load.
  destruct (localPersistance st !! name) as [l|] eqn:El;
    destruct (filePersistance st); try destruct (files st !! name) as [l'|] eqn:Ef;
    simpl; eauto; lia.
Qed.

Lemma add_with_within_capacity (cmp : comparator) (st : store) (name : string)
    (e : jvalue) (k : Z) (i : bool) (now : Z) :
  0 <= k -> within_capacity st name k ->
  within_capacity (store_after (add_with cmp name e (Some k) i now) st) name k.
Proof.
  intros Hk Hw. pose proof (within_capacity_view st name k Hk Hw) as Hv.
  unfold store_after. rewrite add_with_unfold.
  destruct (can_add e) as [[|]|]; simpl; [|done|done].
  set (c := evict cmp (Some k) (merge_or_push i now (view st name) e)).
  assert (Hc : Z.of_nat (length c) <= k).
  { unfold c. rewrite evict_length.
    destruct (merge_or_push_length i now (view st name) e) as [Hm _].
    destruct (Z.ltb_spec k (Z.of_nat (length (merge_or_push i now (view st name) e)))); lia. }
  split; simpl.
  - intros l. rewrite lookup_insert_eq. by intros [= <-].
  - intros l. destruct (filePersistance st).
    + rewrite lookup_insert_eq. intros [= <-]. by rewrite length_map.
    + apply Hw.
Qed.

(** C3. In a collection with capacity [k], any sequence of
    [addArrayEntry] / [addArrayCountEntry] calls with that capacity,
    starting from at most [k] records, leaves at most [k] records in
    memory and in the file after each write. *)
Theorem inserts_within_capacity (st : store) (name : string) (k : Z) (cs : list call) :
  0 <= k ->
  within_capacity st name k ->
  Forall (insert_on name k) cs ->
  within_capacity (run_calls cs st) name k.
Proof.
  intros Hk. revert st. induction cs as [|c cs IH]; intros st Hw Hcs; simpl; [done|].
  inversion Hcs as [|? ? Hc Hcs']; subst.
  apply IH; [|done].
  destruct c as [n e [k'|] i t|n e [k'|] i t| | | | | |]; simpl in Hc; try done;
    destruct Hc as [-> ->]; apply add_with_within_capacity; done.
Qed.

(** Ten size records kept from the empty store, after eleven inserts
    at capacity 10. *)
Lemma inserts_within_capacity_witness :
  within_capacity
    (run_calls (map (fun t => CallAddArrayEntry "sizes" (JObj [("w", JNum t); ("h", JNum t)]) (Some 10) true t)
                    [1; 2; 3; 4; 5; 6; 7; 8; 9; 10; 11])
               (new_state_management false ∅)) "sizes" 10.
Proof.
  apply inserts_within_capacity.
  - lia.
  - split; intros l Hl; simpl in Hl; by rewrite lookup_empty in Hl.
  - repeat constructor.
Defined.

(** The boolean comparators never return a negative number. *)
Lemma cmp_time_bool_nonneg (a b : record) : 0 <= cmp_time_bool a b.
Proof. unfold cmp_time_bool. destruct (time a <? time b); lia. Qed.

Lemma cmp_count_bool_nonneg (a b : record) : 0 <= cmp_count_bool a b.
Proof. unfold cmp_count_bool. destruct (count a <? count b); lia. Qed.

(** So an ordered read hands the records out in the order they are
    stored in. *)
Lemma getArrayEntries_stored_order (st : store) (name : string) (map_ : bool) :
  result_of (getArrayEntries name map_ true) st =
  Normal (if map_ then Entries (map entry (view st name)) else Records (view st name)).
Proof.
  unfold result_of, getArrayEntries, view. destruct (load st name) as [l src].
  simpl. rewrite js_sort_nonneg; [done|]. apply cmp_time_bool_nonneg.
Qed.

(** C6 (code bug). Two texts requested at 1 ms and 2 ms: the recent-texts
    query returns the older one first. *)
Theorem recent_texts_oldest_first :
  result_of sendRecentTexts
    (run_calls [CallAddArrayEntry "texts" (JStr "a") (Some 10) true 1;
                CallAddArrayEntry "texts" (JStr "b") (Some 10) true 2]
               (new_state_management false ∅))
  = Normal (Entries [JStr "a"; JStr "b"]).
Proof. vm_compute. reflexivity. Qed.

(** C7 (code bug). Size 100x100 requested once, then 200x200 twice: the
    top-sizes query lists the size requested once first. *)
Theorem top_sizes_least_first :
  result_of sendTopSizes
    (run_calls [CallAddArrayCountEntry "sizes-all" (JObj [("w", JStr "100"); ("h", JStr "100")]) (Some 10) true 1;
                CallAddArrayCountEntry "sizes-all" (JObj [("w", JStr "200"); ("h", JStr "200")]) (Some 10) true 2;
                CallAddArrayCountEntry "sizes-all" (JObj [("w", JStr "200"); ("h", JStr "200")]) (Some 10) true 3]
               (new_state_management false ∅))
  = Normal [JObj [("n", JNum 1); ("w", JStr "100"); ("h", JStr "100")];
            JObj [("n", JNum 2); ("w", JStr "200"); ("h", JStr "200")]].
Proof. vm_compute. reflexivity. Qed.

(** C8 (code bug). [null], [undefined] and [""] are dropped without a
    change, but an empty array (any array) makes both inserts throw a
    [ReferenceError]. *)
Theorem insert_empty_values (st : store) (name : string) (p : option Z) (i : bool) (now : Z) :
  addArrayEntry name JNull p i now st = (Normal tt, st) /\
  addArrayEntry name JUndefined p i now st = (Normal tt, st) /\
  addArrayEntry name (JStr "") p i now st = (Normal tt, st) /\
  addArrayCountEntry name JNull p i now st = (Normal tt, st) /\
  addArrayCountEntry name JUndefined p i now st = (Normal tt, st) /\
  addArrayCountEntry name (JStr "") p i now st = (Normal tt, st) /\
  addArrayEntry name (JArr []) p i now st = (Thrown (ReferenceError "a is not defined"), st) /\
  addArrayCountEntry name (JArr []) p i now st = (Thrown (ReferenceError "a is not defined"), st).
Proof.
  unfold addArrayEntry, addArrayCountEntry. rewrite !add_with_unfold. done.
Qed.

(** C10. In memory-only mode a read adds, drops and changes no record:
    other collections and the files are untouched, an absent collection
    stays absent, and the stored array of [name] becomes the read's
    sorted array (a permutation of it) when [order] is set, and stays
    as it was otherwise. *)
Theorem getArrayEntries_memory_frame (st : store) (name : string) (map_ order : bool) :
  filePersistance st = false ->
  filePersistance (store_after (getArrayEntries name map_ order) st) = false /\
  files (store_after (getArrayEntries name map_ order) st) = files st /\
  (forall n, n <> name ->
     localPersistance (store_after (getArrayEntries name map_ order) st) !! n =
     localPersistance st !! n) /\
  (localPersistance st !! name = None ->
     localPersistance (store_after (getArrayEntries name map_ order) st) !! name = None) /\
  (forall l, localPersistance st !! name = Some l ->
     exists l',
       localPersistance (store_after (getArrayEntries name map_ order) st) !! name = Some l' /\
       l' ≡ₚ l /\
       l' = (if order then js_sort cmp_time_bool l else l) /\
       result_of (getArrayEntries name map_ order) st =
       Normal (if map_ then Entries (map entry l') else Records l')).
Proof.
  intros Hfp. unfold store_after, result_of, getArrayEntries, load. rewrite Hfp.
  destruct (localPersistance st !! name) as [l|] eqn:El.
  - destruct order; simpl.
    + split; [done|]. split; [done|].
      split; [intros n Hn; by rewrite lookup_insert_ne by congruence|].
      split; [done|]. intros l0 [= <-]. eexists. rewrite lookup_insert_eq.
      split; [done|]. split; [apply js_sort_perm|]. done.
    + split; [done|]. split; [done|]. split; [done|]. split; [done|].
      intros l0 [= <-]. exists l. rewrite El. done.
  - destruct order; simpl; (split; [done|]); (split; [done|]);
      (split; [done|]); (split; [intros; by rewrite El|]); intros l0 Hl0; congruence.
Qed.

Lemma getArrayEntries_memory_frame_witness :
  filePersistance (store_after (getArrayEntries "texts" true true)
    (mkStore false (<["texts" := [mkRecord (JStr "a") 1 1; mkRecord (JStr "b") 2 1]]> ∅) ∅)) = false /\
  files (store_after (getArrayEntries "texts" true true)
    (mkStore false (<["texts" := [mkRecord (JStr "a") 1 1; mkRecord (JStr "b") 2 1]]> ∅) ∅)) = ∅.
Proof.
  destruct (getArrayEntries_memory_frame
    (mkStore false (<["texts" := [mkRecord (JStr "a") 1 1; mkRecord (JStr "b") 2 1]]> ∅) ∅)
    "texts" true true eq_refl) as (H1 & H2 & _).
  split; [exact H1|exact H2].
Defined.

(** ** File mode *)

Lemma mirrored_load (st : store) (name : string) :
  mirrored st ->
  load st name = match files st !! name with
                 | Some l => (l, FromFile)
                 | None => ([], Fresh)
                 end.
Proof.
  intros [Hfp Hm]. unfold load. rewrite Hfp.
  destruct (files st !! name) as [l|] eqn:Ef; [done|].
  destruct (localPersistance st !! name) as [l|] eqn:El; [|done].
  apply Hm in El. congruence.
Qed.

Lemma mirrored_getArrayEntries (st : store) (name : string) (map_ order : bool) :
  mirrored st -> store_after (getArrayEntries name map_ order) st = st.
Proof.
  intros Hm. unfold store_after, getArrayEntries. rewrite (mirrored_load st name Hm).
  destruct (files st !! name); by destruct order.
Qed.

Lemma mirrored_sorted_by_count_bool (st : store) (name : string) :
  mirrored st -> (sorted_by_count_bool name st).2 = st.
Proof.
  intros Hm. unfold sorted_by_count_bool. rewrite (mirrored_load st name Hm).
  by destruct (files st !! name).
Qed.

Lemma mirrored_write (st : store) (name : string) (c : list record) :
  mirrored st -> mirrored (store_after (writeArrayEntries name c) st).
Proof.
  intros [Hfp Hm]. rewrite writeArrayEntries_store, Hfp. split; [done|].
  simpl. intros n l. destruct (decide (n = name)) as [->|Hne].
  - rewrite !lookup_insert_eq. by intros [= <-].
  - rewrite !lookup_insert_ne by done. apply Hm.
Qed.

Lemma mirrored_add_with (cmp : comparator) (st : store) (name : string) (e : jvalue)
    (p : option Z) (i : bool) (now : Z) :
  mirrored st -> mirrored (store_after (add_with cmp name e p i now) st).
Proof.
  intros Hm. unfold store_after. rewrite add_with_unfold.
  destruct (can_add e) as [[|]|]; [|done|done]. by apply mirrored_write.
Qed.

Lemma keeps_mirrored_bind {A B} (m : M A) (f : A -> M B) :
  keeps_mirrored m -> (forall a, keeps_mirrored (f a)) -> keeps_mirrored (bind m f).
Proof.
  intros Hm Hf st Hst. unfold bind.
  specialize (Hm st Hst). destruct (m st) as [[a|e] st']; simpl in *; [|done].
  by apply Hf.
Qed.

Lemma keeps_mirrored_ret {A} (a : A) : keeps_mirrored (ret a).
Proof. intros st Hst. done. Qed.

Lemma keeps_mirrored_write (name : string) (c : list record) :
  keeps_mirrored (writeArrayEntries name c).
Proof. intros st Hst. by apply mirrored_write. Qed.

Lemma keeps_mirrored_get (name : string) (map_ order : bool) :
  keeps_mirrored (getArrayEntries name map_ order).
Proof.
  intros st Hst. pose proof (mirrored_getArrayEntries st name map_ order Hst) as E.
  unfold store_after in E. by rewrite E.
Qed.

Lemma keeps_mirrored_sorted (name : string) : keeps_mirrored (sorted_by_count_bool name).
Proof. intros st Hst. by rewrite mirrored_sorted_by_count_bool. Qed.

Create HintDb mirror.
#[local] Hint Resolve keeps_mirrored_bind keeps_mirrored_ret keeps_mirrored_write
  keeps_mirrored_get keeps_mirrored_sorted : mirror.

Lemma mirrored_run_call (c : call) (st : store) :
  mirrored st -> mirrored (run_call c st).2.
Proof.
  revert st. change (keeps_mirrored (run_call c)).
  destruct c; simpl.
  - intros st Hst. by apply mirrored_add_with.
  - intros st Hst. by apply mirrored_add_with.
  - eauto with mirror.
  - unfold removeArrayEntries. eauto with mirror.
  - unfold sendTopSizes. eauto with mirror.
  - unfold sendTopReferences. eauto with mirror.
  - unfold sendSecondHits. eauto 10 with mirror.
  - unfold clearAllStats, removeArrayEntries. eauto 20 with mirror.
Qed.

Lemma mirrored_run_calls (cs : list call) (st : store) :
  mirrored st -> mirrored (run_calls cs st).
Proof.
  revert st. induction cs as [|c cs IH]; intros st Hm; simpl; [done|].
  by apply IH, mirrored_run_call.
Qed.

(** C9. In file mode, after any sequence of calls from a new store over
    any directory: every collection held in memory is written, in
    full, to its own file; and any read returns the same value as the
    same read on a new store over the same directory (after a
    restart). *)
Theorem file_mode_round_trip (disk : gmap string (list record)) (cs : list call) :
  (forall name l,
     localPersistance (run_calls cs (new_state_management true disk)) !! name = Some l ->
     files (run_calls cs (new_state_management true disk)) !! name = Some (map record_roundtrip l)) /\
  (forall name map_ order,
     result_of (getArrayEntries name map_ order) (run_calls cs (new_state_management true disk)) =
     result_of (getArrayEntries name map_ order) (restart (run_calls cs (new_state_management true disk)))).
Proof.
  assert (Hm : mirrored (run_calls cs (new_state_management true disk))).
  { apply mirrored_run_calls. split; [done|]. intros name l. simpl. by rewrite lookup_empty. }
  split; [apply Hm|].
  intros name map_ order.
  set (st := run_calls cs (new_state_management true disk)) in *.
  assert (Hr : mirrored (restart st)).
  { split; [apply Hm|]. intros n l. simpl. by rewrite lookup_empty. }
  unfold result_of, getArrayEntries.
  rewrite (mirrored_load st name Hm), (mirrored_load (restart st) name Hr). simpl.
  by destruct (files st !! name).
Qed.

(** C2, as stated, fails: with a capacity the eviction drops a record
    together with its count, and an entry inserted again afterwards
    starts over at 1.  Capacity 1, merging on: "a" at 1, "b" at 2 (the
    eviction drops "a"), "a" at 3 (the eviction drops "b").  The one
    record left is "a" with count 1, though "a" was inserted twice. *)
Lemma merge_count_reset_by_eviction :
  Forall (merge_insert_on "texts")
    [CallAddArrayEntry "texts" (JStr "a") (Some 1) true 1;
     CallAddArrayEntry "texts" (JStr "b") (Some 1) true 2;
     CallAddArrayEntry "texts" (JStr "a") (Some 1) true 3] /\
  view (run_calls
    [CallAddArrayEntry "texts" (JStr "a") (Some 1) true 1;
     CallAddArrayEntry "texts" (JStr "b") (Some 1) true 2;
     CallAddArrayEntry "texts" (JStr "a") (Some 1) true 3]
    (new_state_management false ∅)) "texts" = [mkRecord (JStr "a") 3 1] /\
  times_in (accepted_entries
    [CallAddArrayEntry "texts" (JStr "a") (Some 1) true 1;
     CallAddArrayEntry "texts" (JStr "b") (Some 1) true 2;
     CallAddArrayEntry "texts" (JStr "a") (Some 1) true 3]) (JStr "a") = 2%nat.
Proof.
  split; [|split].
  - repeat (apply List.Forall_cons; [reflexivity|]). apply List.Forall_nil.
  - vm_compute. reflexivity.
  - vm_compute. reflexivity.
Qed.

(** C2 (amended).  Starting from an empty collection, after any sequence
    of merging inserts ([increment] true) on it: no two stored records
    have entries with the same [JSON.stringify]; each stored count is at
    most the number of accepted insertions of that entry; and when no
    insert sets a capacity ([persistAmount] null), each stored count
    equals that number and every accepted entry has its record. *)
Theorem merge_inserts_invariant (st : store) (name : string) (cs : list call) :
  view st name = [] ->
  Forall (merge_insert_on name) cs ->
  NoDup (map entry_key (view (run_calls cs st) name)) /\
  (forall r, r ∈ view (run_calls cs st) name ->
     count r <= Z.of_nat (times_in (accepted_entries cs) (entry r))) /\
  (Forall no_capacity cs ->
     (forall r, r ∈ view (run_calls cs st) name ->
        count r = Z.of_nat (times_in (accepted_entries cs) (entry r))) /\
     (forall e, e ∈ accepted_entries cs ->
        exists r, r ∈ view (run_calls cs st) name /\ entry_key r = json_stringify e)).
Proof.
  intros Hempty Hon.
  assert (H0 : forall nocap, merge_inv nocap [] (view st name)).
  { intros nocap. rewrite Hempty. split; [constructor|split].
    - intros r Hr. by apply elem_of_nil in Hr.
    - intros _. split; [intros r Hr; by apply elem_of_nil in Hr|].
      intros e He. by apply elem_of_nil in He. }
  destruct (merge_inv_run_calls false [] name cs st Hon ltac:(done) (H0 false))
    as (Hnd & Hle & _).
  split; [exact Hnd|]. split; [exact Hle|].
  intros Hcap.
  destruct (merge_inv_run_calls true [] name cs st Hon (fun _ => Hcap) (H0 true))
    as (_ & _ & Heq).
  exact (Heq eq_refl).
Qed.

Lemma merge_inserts_invariant_witness :
  NoDup (map entry_key (view (run_calls
    [CallAddArrayEntry "texts" (JStr "a") None true 1;
     CallAddArrayEntry "texts" (JStr "b") None true 2;
     CallAddArrayEntry "texts" (JStr "a") None true 3]
    (new_state_management false ∅)) "texts")).
Proof.
  apply (merge_inserts_invariant (new_state_management false ∅) "texts").
  - vm_compute. reflexivity.
  - repeat (apply List.Forall_cons; [reflexivity|]). apply List.Forall_nil.
Defined.

Lemma getArrayEntries_file_flag (name : string) (map_ order : bool) (st : store) :
  filePersistance (store_after (getArrayEntries name map_ order) st) = filePersistance st.
Proof.
  unfold store_after, getArrayEntries. destruct (load st name) as [l src].
  destruct order, src; reflexivity.
Qed.

(** [sendSecondHits], unfolded: the three counts over the stored hits,
    and the write of the 15-second filter. *)
Lemma sendSecondHits_unfold (adjusted current : Z) (st : store) :
  sendSecondHits adjusted current st =
  (Normal [hit_count "5s" (length (filter (in_window (adjusted - 5000) current) (view st "hits")));
           hit_count "10s" (length (filter (in_window (adjusted - 10000) current) (view st "hits")));
           hit_count "15s" (length (filter (in_window (adjusted - 15000) current) (view st "hits")))],
   store_after (writeArrayEntries "hits" (filter (in_window (adjusted - 15000) current) (view st "hits")))
     (store_after (getArrayEntries "hits" false true) st)).
Proof.
  pose proof (getArrayEntries_stored_order st "hits" false) as H. unfold result_of in H.
  unfold sendSecondHits, bind at 1, store_after.
  destruct (getArrayEntries "hits" false true st) as [o st'] eqn:E. simpl in H. subst o.
  reflexivity.
Qed.

Lemma sendSecondHits_view (adjusted current : Z) (st : store) :
  view (store_after (sendSecondHits adjusted current) st) "hits" =
  if filePersistance st
  then map record_roundtrip (filter (in_window (adjusted - 15000) current) (view st "hits"))
  else filter (in_window (adjusted - 15000) current) (view st "hits").
Proof.
  unfold store_after at 1. rewrite sendSecondHits_unfold. simpl.
  rewrite view_write_same. by rewrite getArrayEntries_file_flag.
Qed.

Lemma in_window_in (a c : Z) (x : record) : a < time x < c -> in_window a c x.
Proof.
  intros H. unfold in_window. destruct (Z.ltb_spec a (time x)), (Z.ltb_spec (time x) c);
    simpl; [exact I|lia|lia|lia].
Qed.

Lemma in_window_out (a c : Z) (x : record) : ~ (a < time x < c) -> ~ in_window a c x.
Proof.
  intros H. unfold in_window. destruct (Z.ltb_spec a (time x)), (Z.ltb_spec (time x) c);
    simpl; [lia|tauto|tauto|tauto].
Qed.

Ltac filter_window :=
  repeat ((rewrite filter_cons_True by (apply in_window_in; lia))
          || (rewrite filter_cons_False by (apply in_window_out; lia)));
  rewrite filter_nil.

(** C1, as stated, fails: the windows are open at the top.  A hit
    recorded in the same millisecond as the query ([time] = 100000, both
    clock readings 100000) lies in (now-5s, now] for now = 100000, yet
    [sendSecondHits] counts it in none of the three windows and drops it
    from "hits". *)
Lemma second_hits_skip_current_instant :
  result_of (sendSecondHits 100000 100000)
    (mkStore false (<["hits" := [mkRecord JNull 100000 1]]> ∅) ∅) =
    Normal [hit_count "5s" 0; hit_count "10s" 0; hit_count "15s" 0] /\
  view (store_after (sendSecondHits 100000 100000)
    (mkStore false (<["hits" := [mkRecord JNull 100000 1]]> ∅) ∅)) "hits" = [] /\
  100000 - 5000 < time (mkRecord JNull 100000 1) <= 100000.
Proof.
  split; [|split].
  - vm_compute. reflexivity.
  - vm_compute. reflexivity.
  - simpl. lia.
Qed.

(** C1 (amended).  [sendSecondHits] reads the clock twice, [adjusted]
    then [current]; the window of [k] seconds is
    ([adjusted] - [k]s, [current]), open at both ends.  The counts are
    those of the stored hits in the 5, 10 and 15 second windows, and
    "hits" is left holding the hits of the 15 second window (through
    the JSON file when persisting).  So with four hits at -3s, -7s,
    -12s and -20s from [current], and [adjusted] at most 2s before
    [current], the counts are 1, 2 and 3 and the -20s hit is gone. *)
Theorem second_hits_windows :
  (forall (st : store) (adjusted current : Z),
     result_of (sendSecondHits adjusted current) st =
       Normal [hit_count "5s" (length (filter (in_window (adjusted - 5000) current) (view st "hits")));
               hit_count "10s" (length (filter (in_window (adjusted - 10000) current) (view st "hits")));
               hit_count "15s" (length (filter (in_window (adjusted - 15000) current) (view st "hits")))] /\
     view (store_after (sendSecondHits adjusted current) st) "hits" =
       (if filePersistance st
        then map record_roundtrip (filter (in_window (adjusted - 15000) current) (view st "hits"))
        else filter (in_window (adjusted - 15000) current) (view st "hits"))) /\
  (forall (st : store) (adjusted current : Z) (r1 r2 r3 r4 : record),
     view st "hits" ≡ₚ [r1; r2; r3; r4] ->
     time r1 = current - 3000 -> time r2 = current - 7000 ->
     time r3 = current - 12000 -> time r4 = current - 20000 ->
     current - 2000 <= adjusted <= current ->
     result_of (sendSecondHits adjusted current) st =
       Normal [hit_count "5s" 1; hit_count "10s" 2; hit_count "15s" 3] /\
     exists L, L ≡ₚ [r1; r2; r3] /\
       view (store_after (sendSecondHits adjusted current) st) "hits" =
       (if filePersistance st then map record_roundtrip L else L)).
Proof.
  assert (Hgen : forall (st : store) (adjusted current : Z),
     result_of (sendSecondHits adjusted current) st =
       Normal [hit_count "5s" (length (filter (in_window (adjusted - 5000) current) (view st "hits")));
               hit_count "10s" (length (filter (in_window (adjusted - 10000) current) (view st "hits")));
               hit_count "15s" (length (filter (in_window (adjusted - 15000) current) (view st "hits")))] /\
     view (store_after (sendSecondHits adjusted current) st) "hits" =
       (if filePersistance st
        then map record_roundtrip (filter (in_window (adjusted - 15000) current) (view st "hits"))
        else filter (in_window (adjusted - 15000) current) (view st "hits"))).
  { intros st adjusted current. split; [|apply sendSecondHits_view].
    unfold result_of. by rewrite sendSecondHits_unfold. }
  split; [exact Hgen|].
  intros st adjusted current r1 r2 r3 r4 Hp H1 H2 H3 H4 Ha.
  destruct (Hgen st adjusted current) as [Hres Hview].
  assert (Hf : forall k, filter (in_window (adjusted - k) current) (view st "hits") ≡ₚ
                         filter (in_window (adjusted - k) current) [r1; r2; r3; r4]).
  { intros k. by rewrite Hp. }
  split.
  - rewrite Hres.
    rewrite (Permutation_length (Hf 5000)), (Permutation_length (Hf 10000)),
            (Permutation_length (Hf 15000)).
    filter_window. reflexivity.
  - exists (filter (in_window (adjusted - 15000) current) (view st "hits")).
    split; [|exact Hview].
    rewrite (Hf 15000). filter_window. reflexivity.
Qed.

Lemma second_hits_windows_witness :
  result_of (sendSecondHits 100000 100000)
    (mkStore false (<["hits" := [mkRecord JNull 97000 1; mkRecord JNull 93000 1;
                                 mkRecord JNull 88000 1; mkRecord JNull 80000 1]]> ∅) ∅) =
    Normal [hit_count "5s" 1; hit_count "10s" 2; hit_count "15s" 3].
Proof.
  apply (proj2 second_hits_windows
    (mkStore false (<["hits" := [mkRecord JNull 97000 1; mkRecord JNull 93000 1;
                                 mkRecord JNull 88000 1; mkRecord JNull 80000 1]]> ∅) ∅)
    100000 100000
    (mkRecord JNull 97000 1) (mkRecord JNull 93000 1)
    (mkRecord JNull 88000 1) (mkRecord JNull 80000 1)).
  - vm_compute. reflexivity.
  - reflexivity.
  - reflexivity.
  - reflexivity.
  - reflexivity.
  - lia.
Defined.

(* ================================================================== *)
(** * Further properties of the code *)

(** ** Reads and writes of the store *)

(** The array a read hands out: the stored one, whatever [order] says
    (the boolean comparator never moves an element). *)
Lemma getArrayEntries_result (st : store) (name : string) (map_ order : bool) :
  result_of (getArrayEntries name map_ order) st =
  Normal (if map_ then Entries (map entry (view st name)) else Records (view st name)).
Proof.
  unfold result_of, getArrayEntries, view. destruct (load st name) as [l src].
  destruct order; simpl; [|done].
  rewrite js_sort_nonneg; [done|]. apply cmp_time_bool_nonneg.
Qed.

Lemma view_remove (m n : string) (st : store) :
  view (store_after (removeArrayEntries m) st) n = if String.eqb m n then [] else view st n.
Proof.
  unfold removeArrayEntries. destruct (String.eqb_spec m n) as [<-|Hne].
  - rewrite view_write_same. by destruct (filePersistance st).
  - by apply view_write_other.
Qed.

Lemma clearAllStats_store (st : store) :
  store_after clearAllStats st =
  store_after (removeArrayEntries "references")
   (store_after (removeArrayEntries "sizes-all")
    (store_after (removeArrayEntries "sizes")
     (store_after (removeArrayEntries "texts")
      (store_after (removeArrayEntries "paths")
       (store_after (removeArrayEntries "hits") st))))).
Proof. reflexivity. Qed.

Lemma add_with_view_other (cmp : comparator) (name name' : string) (e : jvalue)
    (p : option Z) (i : bool) (now : Z) (st : store) :
  name <> name' ->
  view (store_after (add_with cmp name e p i now) st) name' = view st name'.
Proof.
  intros Hne. unfold store_after. rewrite add_with_unfold.
  destruct (can_add e) as [[|]|]; [|done|done]. by apply view_write_other.
Qed.

Lemma add_with_accepted_view (cmp : comparator) (name : string) (e : jvalue)
    (p : option Z) (i : bool) (now : Z) (st : store) :
  can_add e = Some true ->
  view (store_after (add_with cmp name e p i now) st) name =
  if filePersistance st then map record_roundtrip (evict cmp p (merge_or_push i now (view st name) e))
  else evict cmp p (merge_or_push i now (view st name) e).
Proof.
  intros Hc. unfold store_after. rewrite add_with_unfold, Hc.
  pose proof (view_write_same name (evict cmp p (merge_or_push i now (view st name) e)) st) as Hw.
  unfold store_after in Hw. exact Hw.
Qed.

Lemma incrementIfExists_first (now : Z) (A B : list record) (r0 : record) (e : jvalue) :
  Forall (fun r => entry_key r <> json_stringify e) A ->
  entry_key r0 = json_stringify e ->
  _incrementIfExists now (A ++ r0 :: B) e = Some (A ++ _incrementEntry now r0 :: B).
Proof.
  intros HA H0. induction A as [|r A IH]; simpl.
  - assert (Hs : same_entry (entry r0) e = true) by (apply same_entry_spec; exact H0).
    by rewrite Hs.
  - apply Forall_cons in HA as [Hr HA].
    destruct (same_entry (entry r) e) eqn:Hs.
    + apply same_entry_spec in Hs. contradiction.
    + by rewrite IH.
Qed.

(** X1: after [removeArrayEntries(name)] every read of [name] is empty,
    in memory and in file mode. *)
Theorem removeArrayEntries_read_empty (st : store) (name : string) (map_ order : bool) :
  result_of (getArrayEntries name map_ order) (store_after (removeArrayEntries name) st) =
  Normal (if map_ then Entries [] else Records []).
Proof.
  rewrite getArrayEntries_result, view_remove, String.eqb_refl. by destruct map_.
Qed.

(** X2: after [clearAllStats] every read of the six stats collections is
    empty, and every other collection is as it was. *)
Theorem clearAllStats_reads (st : store) :
  (forall n map_ order, n ∈ stat_names ->
     result_of (getArrayEntries n map_ order) (store_after clearAllStats st) =
     Normal (if map_ then Entries [] else Records [])) /\
  (forall n, n ∉ stat_names -> view (store_after clearAllStats st) n = view st n).
Proof.
  split.
  - intros n map_ order Hn. rewrite getArrayEntries_result, clearAllStats_store, !view_remove.
    unfold stat_names in Hn.
    repeat (apply elem_of_cons in Hn as [->|Hn]; [by destruct map_|]).
    by apply elem_of_nil in Hn.
  - intros n Hn. rewrite clearAllStats_store, !view_remove.
    unfold stat_names in Hn.
    repeat match goal with
    | |- context [String.eqb ?m n] =>
        let E := fresh in
        destruct (String.eqb_spec m n) as [E|E];
          [subst; exfalso; apply Hn; set_solver|]
    end.
    done.
Qed.

(** X3: a write is read back: an unordered read after
    [writeArrayEntries(name, entries)] returns [entries] in memory mode
    and [entries] through [JSON.parse(JSON.stringify(..))] in file mode;
    reads of other collections do not change. *)
Theorem writeArrayEntries_read_back (st : store) (name : string) (c : list record) :
  result_of (getArrayEntries name false false) (store_after (writeArrayEntries name c) st) =
  Normal (Records (if filePersistance st then map record_roundtrip c else c)) /\
  (forall name' map_ order, name' <> name ->
     result_of (getArrayEntries name' map_ order) (store_after (writeArrayEntries name c) st) =
     result_of (getArrayEntries name' map_ order) st).
Proof.
  split.
  - by rewrite getArrayEntries_result, view_write_same.
  - intros name' map_ order Hne. rewrite !getArrayEntries_result.
    by rewrite view_write_other by congruence.
Qed.

(** X4: an insert with merging off ([increment] false) and no capacity
    appends one new record with count 1 at the end, for an entry that
    [_canAdd] accepts; this is how [saveAllImageStats] records each hit. *)
Theorem insert_without_merge_appends (name : string) (e : jvalue) (now : Z) (st : store) :
  can_add e = Some true ->
  view (store_after (addArrayEntry name e None false now) st) name =
    (if filePersistance st then map record_roundtrip (view st name ++ [mkRecord e now 1])
     else view st name ++ [mkRecord e now 1]) /\
  view (store_after (addArrayCountEntry name e None false now) st) name =
    (if filePersistance st then map record_roundtrip (view st name ++ [mkRecord e now 1])
     else view st name ++ [mkRecord e now 1]).
Proof.
  intros Hc. unfold addArrayEntry, addArrayCountEntry.
  rewrite !add_with_accepted_view by exact Hc. done.
Qed.

Lemma insert_without_merge_appends_witness :
  view (store_after (addArrayEntry "hits" (JStr "/img/1") None false 5)
          (new_state_management false ∅)) "hits" = [mkRecord (JStr "/img/1") 5 1].
Proof.
  exact (proj1 (insert_without_merge_appends "hits" (JStr "/img/1") 5
                  (new_state_management false ∅) eq_refl)).
Defined.

(** X5: merging an entry already stored (by [JSON.stringify]) with no
    capacity keeps the number of records: the first matching record gets
    count + 1 and time [now], every other record is unchanged. *)
Theorem insert_merges_first_match (name : string) (e : jvalue) (now : Z) (st : store)
    (A B : list record) (r0 : record) :
  can_add e = Some true ->
  view st name = A ++ r0 :: B ->
  Forall (fun r => json_stringify (entry r) <> json_stringify e) A ->
  json_stringify (entry r0) = json_stringify e ->
  view (store_after (addArrayEntry name e None true now) st) name =
    (if filePersistance st then map record_roundtrip (A ++ mkRecord (entry r0) now (count r0 + 1) :: B)
     else A ++ mkRecord (entry r0) now (count r0 + 1) :: B) /\
  view (store_after (addArrayCountEntry name e None true now) st) name =
    (if filePersistance st then map record_roundtrip (A ++ mkRecord (entry r0) now (count r0 + 1) :: B)
     else A ++ mkRecord (entry r0) now (count r0 + 1) :: B).
Proof.
  intros Hc Hv HA H0. unfold addArrayEntry, addArrayCountEntry.
  rewrite !add_with_accepted_view by exact Hc. rewrite Hv.
  unfold merge_or_push. rewrite incrementIfExists_first by done. done.
Qed.

Lemma insert_merges_first_match_witness :
  view (store_after (addArrayEntry "texts" (JStr "b") None true 9)
          (mkStore false (<["texts" := [mkRecord (JStr "a") 1 1; mkRecord (JStr "b") 2 3]]> ∅) ∅))
       "texts" = [mkRecord (JStr "a") 1 1; mkRecord (JStr "b") 9 4].
Proof.
  refine (proj1 (insert_merges_first_match "texts" (JStr "b") 9
    (mkStore false (<["texts" := [mkRecord (JStr "a") 1 1; mkRecord (JStr "b") 2 3]]> ∅) ∅)
    [mkRecord (JStr "a") 1 1] [] (mkRecord (JStr "b") 2 3) _ _ _ _)).
  - reflexivity.
  - reflexivity.
  - apply List.Forall_cons; [|apply List.Forall_nil].
    intros H. vm_compute in H. congruence.
  - reflexivity.
Defined.

(** X6: a read hands out the same array whether or not it asks for the
    order: the sort by [a.time < b.time] never moves an element. *)
Theorem ordered_read_is_stored_order (st : store) (name : string) (map_ : bool) :
  result_of (getArrayEntries name map_ true) st = result_of (getArrayEntries name map_ false) st.
Proof. by rewrite !getArrayEntries_result. Qed.

(** ** Strings: [escape] and [formatString] *)

Lemma append_cons_s (x : ascii) (a b : string) :
  String.append (String x a) b = String x (String.append a b).
Proof. reflexivity. Qed.

Lemma append_empty_s (b : string) : String.append EmptyString b = b.
Proof. reflexivity. Qed.

Ltac app_simpl := rewrite ?append_cons_s, ?append_empty_s; simpl.

Lemma append_assoc_s (a b c : string) :
  String.append (String.append a b) c = String.append a (String.append b c).
Proof. induction a as [|x a IH]; app_simpl; [done|by rewrite IH]. Qed.

Lemma append_nil_s (a : string) : String.append a EmptyString = a.
Proof. induction a as [|x a IH]; app_simpl; [done|by rewrite IH]. Qed.

Lemma length_append_s (a b : string) :
  String.length (String.append a b) = (String.length a + String.length b)%nat.
Proof. induction a as [|x a IH]; app_simpl; [done|by rewrite IH]. Qed.

Lemma has_char_append (c : ascii) (a b : string) :
  has_char c (String.append a b) = has_char c a || has_char c b.
Proof. induction a as [|x a IH]; app_simpl; [done|]. rewrite IH. by destruct (Ascii.eqb c x). Qed.

Lemma substring_prefix (a b : string) : substring 0 (String.length a) (String.append a b) = a.
Proof. induction a as [|x a IH]; app_simpl; [by destruct b|by rewrite IH]. Qed.

Lemma substring_skip (a b : string) (k m : nat) :
  substring (String.length a + k) m (String.append a b) = substring k m b.
Proof. induction a as [|x a IH]; app_simpl; [done|exact IH]. Qed.

Lemma substring_all (b : string) (m : nat) : (String.length b <= m)%nat -> substring 0 m b = b.
Proof.
  revert m. induction b as [|x b IH]; intros m Hm; simpl.
  - by destruct m.
  - destruct m as [|m]; simpl in Hm; [lia|]. f_equal. apply IH. lia.
Qed.

Lemma index_of_no_pct (a b : string) :
  has_char "%" a = false -> index_of "%s" (String.append a b) =
                            option_map (Nat.add (String.length a)) (index_of "%s" b).
Proof.
  induction a as [|x a IH]; intros H; app_simpl.
  - by destruct (index_of "%s" b).
  - simpl in H. apply orb_false_iff in H as [Hx Ha].
    cbn [index_of starts_with]. rewrite Hx. simpl. rewrite IH by exact Ha.
    by destruct (index_of "%s" b).
Qed.

Lemma index_of_pct_here (b : string) : index_of "%s" (String.append "%s" b) = Some 0%nat.
Proof. reflexivity. Qed.

Lemma includes_no_pct (s : string) : has_char "%" s = false -> includes "%s" s = false.
Proof.
  intros H. unfold includes. rewrite <- (append_nil_s s), index_of_no_pct by exact H.
  reflexivity.
Qed.

Lemma get_substitution_cons (m b a : string) (c : ascii) (t : string) :
  Ascii.eqb c "$" = false ->
  get_substitution m b a (String c t) = String c (get_substitution m b a t).
Proof.
  intros H. destruct c as [[] [] [] [] [] [] [] []]; try discriminate H; reflexivity.
Qed.

Lemma get_substitution_plain (m b a t : string) :
  has_char "$" t = false -> get_substitution m b a t = t.
Proof.
  induction t as [|c t IH]; intros H; [done|].
  simpl in H. apply orb_false_iff in H as [Hc Ht].
  rewrite get_substitution_cons.
  - by rewrite IH.
  - by rewrite Ascii.eqb_sym.
Qed.

Lemma js_replace_first (a b rep : string) :
  has_char "%" a = false -> has_char "$" rep = false ->
  js_replace (String.append a (String.append "%s" b)) "%s" rep =
  String.append a (String.append rep b).
Proof.
  intros Ha Hr. unfold js_replace.
  rewrite index_of_no_pct by exact Ha. rewrite index_of_pct_here. simpl option_map.
  rewrite Nat.add_0_r, substring_prefix.
  rewrite (substring_skip a (String.append "%s" b) 2).
  simpl. rewrite substring_all.
  - by rewrite get_substitution_plain.
  - rewrite !length_append_s. simpl. lia.
Qed.

Lemma formatString_app (s : string) (xs ys : list string) :
  formatString s (xs ++ ys) = formatString (formatString s xs) ys.
Proof. unfold formatString. by rewrite fold_left_app. Qed.

Lemma formatString_no_pct (s : string) (args : list string) :
  has_char "%" s = false -> formatString s args = s.
Proof.
  intros H. unfold formatString. induction args as [|x args IH]; simpl; [done|].
  by rewrite includes_no_pct.
Qed.

Lemma formatString_template_gen (p seg0 : string) (segs args : list string) :
  has_char "%" p = false ->
  Forall (fun seg => has_char "%" seg = false) (seg0 :: segs) ->
  Forall (fun a => has_char "%" a = false /\ has_char "$" a = false) args ->
  formatString (String.append p (template seg0 segs)) args =
  String.append p (fill seg0 segs args).
Proof.
  revert p seg0 segs. induction args as [|x args IH]; intros p seg0 segs Hp Hsegs Hargs.
  - by destruct segs.
  - apply Forall_cons in Hargs as [[Hx1 Hx2] Hargs].
    apply Forall_cons in Hsegs as [Hs0 Hsegs].
    destruct segs as [|seg1 segs]; cbn [template fill].
    + apply formatString_no_pct. by rewrite has_char_append, Hp, Hs0.
    + change (x :: args) with ([x] ++ args). rewrite formatString_app.
      unfold formatString at 2. simpl.
      rewrite <- append_assoc_s.
      assert (Hps : has_char "%" (String.append p seg0) = false)
        by (rewrite has_char_append, Hp, Hs0; done).
      assert (Hinc : includes "%s" (String.append (String.append p seg0)
                       (String.append "%s" (template seg1 segs))) = true).
      { unfold includes. rewrite index_of_no_pct by exact Hps. done. }
      rewrite Hinc, js_replace_first by done.
      rewrite <- append_assoc_s. rewrite IH.
      * by rewrite !append_assoc_s.
      * by rewrite has_char_append, Hps.
      * exact Hsegs.
      * exact Hargs.
Qed.

Lemma fill_no_pct (seg0 : string) (segs args : list string) :
  Forall (fun seg => has_char "%" seg = false) (seg0 :: segs) ->
  Forall (fun a => has_char "%" a = false) args ->
  (length segs <= length args)%nat ->
  has_char "%" (fill seg0 segs args) = false.
Proof.
  revert seg0 args. induction segs as [|seg1 segs IH]; intros seg0 args Hs Ha Hl; simpl.
  - by apply Forall_cons in Hs as [? _].
  - destruct args as [|a args]; simpl in Hl; [lia|].
    apply Forall_cons in Hs as [Hs0 Hs]. apply Forall_cons in Ha as [Ha0 Ha].
    rewrite !has_char_append, Hs0, Ha0. simpl. apply IH; [exact Hs|exact Ha|lia].
Qed.

Lemma random_word_plain (idx : nat) :
  has_char "%" (random_word idx) = false /\ has_char "$" (random_word idx) = false.
Proof.
  unfold random_word. destruct (nth_error WORDS idx) as [w|] eqn:E; [|done].
  apply nth_error_In in E. simpl in E.
  repeat (destruct E as [<-|E]; [done|]). done.
Qed.

Lemma quote_loop (q : string) (word : nat -> nat) (l : list nat) :
  fold_left (fun q index => formatString q [random_word (word index)]) l q =
  formatString q (map (fun i => random_word (word i)) l).
Proof.
  revert q. induction l as [|i l IH]; intros q; [done|].
  cbn [fold_left map]. rewrite IH. change (random_word (word i) :: map (fun i => random_word (word i)) l)
    with ([random_word (word i)] ++ map (fun i => random_word (word i)) l).
  by rewrite formatString_app.
Qed.



(** X7: [escape] leaves a text made only of [A-Z a-z 0-9 @ * _ + - . /]
    as it is. *)
Theorem escape_keeps_safe_text (s : string) :
  Forall (fun c => escape_safe c = true) (list_ascii_of_string s) -> js_escape s = s.
Proof.
  induction s as [|c s IH]; intros H; simpl; [done|].
  apply Forall_cons in H as [Hc H]. rewrite Hc. by rewrite IH.
Qed.

Lemma escape_keeps_safe_text_witness : js_escape "Hello-World_2.png" = "Hello-World_2.png".
Proof.
  apply escape_keeps_safe_text. apply (bool_decide_unpack _). vm_compute. reflexivity.
Defined.



(** X9: [formatString] fills the placeholders of [seg0 %s seg1 ... %s segk]
    with its arguments in order, when neither the text around them holds
    a [%] nor an argument holds a [%] or a [$]: missing arguments leave
    the last placeholders, extra ones are ignored. *)
Theorem formatString_fills_template (seg0 : string) (segs args : list string) :
  Forall (fun seg => has_char "%" seg = false) (seg0 :: segs) ->
  Forall (fun a => has_char "%" a = false /\ has_char "$" a = false) args ->
  formatString (template seg0 segs) args = fill seg0 segs args.
Proof.
  intros Hs Ha. apply (formatString_template_gen EmptyString seg0 segs args); done.
Qed.

Lemma formatString_fills_template_witness :
  formatString (template "If you " [" it, you can "; " it."]) ["dream"; "do"; "extra"] =
  "If you dream it, you can do it.".
Proof.
  rewrite formatString_fills_template.
  - reflexivity.
  - apply (bool_decide_unpack _). vm_compute. reflexivity.
  - repeat (apply List.Forall_cons; [split; reflexivity|]). apply List.Forall_nil.
Defined.

(** X10: [generateInspirationalQuote] rejects a request that sets [text]
    with 400; otherwise, whatever words are drawn, the quote it stores
    has every [%s] filled, and an out-of-range quote index makes it
    throw. *)
Theorem inspirational_quote_filled :
  (forall t qi word, generateInspirationalQuote (Some t) qi word =
     Respond 400 (error_body "Text" "Text query cannot be set if you are looking for a inspiration")) /\
  (forall qi word, (qi < length QUOTES)%nat ->
     exists q, generateInspirationalQuote None qi word = Next q /\ includes "%s" q = false) /\
  (forall qi word, (length QUOTES <= qi)%nat ->
     exists m, generateInspirationalQuote None qi word = Crash m).
Proof.
  split; [done|]. split.
  - intros qi word Hqi.
    assert (Hp : forall seg0 segs n,
      Forall (fun seg => has_char "%" seg = false) (seg0 :: segs) ->
      length segs = n ->
      includes "%s" (formatString (template seg0 segs) (map (fun i => random_word (word i)) (seq 0 n))) = false).
    { intros seg0 segs n Hs Hl.
      assert (Ha : Forall (fun a => has_char "%" a = false /\ has_char "$" a = false)
                     (map (fun i => random_word (word i)) (seq 0 n))).
      { apply Forall_forall. intros a Hain. apply list_elem_of_In in Hain.
        apply in_map_iff in Hain as (i & <- & _). apply random_word_plain. }
      pose proof (formatString_template_gen EmptyString seg0 segs _ eq_refl Hs Ha) as Hf.
      rewrite !append_empty_s in Hf. rewrite Hf.
      apply includes_no_pct, fill_no_pct; [exact Hs| |].
      - eapply Forall_impl; [exact Ha|]. by intros a [? _].
      - rewrite length_map, length_seq. lia. }
    unfold generateInspirationalQuote.
    do 5 (destruct qi as [|qi];
      [eexists; split; [reflexivity|];
       rewrite quote_loop;
       first [ apply (Hp "Turn your " [" into wisdom."] 1%nat)
             | apply (Hp "Wherever you go, go with all your " ["."] 1%nat)
             | apply (Hp "" [" is a waking dream."] 1%nat)
             | apply (Hp "If you " [" it, you can "; " it."] 2%nat)
             | apply (Hp "Dream " [" and dare to "; "."] 2%nat) ];
       first [ apply (bool_decide_unpack _); vm_compute; exact I | reflexivity ]
      |]).
    simpl in Hqi. lia.
  - intros qi word Hqi. unfold generateInspirationalQuote.
    rewrite (proj2 (nth_error_None QUOTES qi) Hqi). by eexists.
Qed.

(** ** Numbers and the validators *)

Lemma mod1_zero_int (n : jsnum) :
  mod1_nonzero n = false -> exists q, n = Fin q /\ int_valued n (Qfloor q).
Proof.
  destruct n as [| | |[num den]]; simpl; try discriminate.
  intros H. exists (num # den). split; [done|].
  apply negb_false_iff, Z.eqb_eq in H.
  assert (Hm : num mod Z.pos den = 0).
  { apply Z.mod_divide; [lia|]. apply Z.rem_divide; [lia|exact H]. }
  apply Z.div_exact in Hm; [|lia].
  unfold Qeq; simpl. lia.
Qed.

Lemma int_valued_fin (q : Q) (k : Z) : int_valued (Fin q) k -> (q == inject_Z k)%Q.
Proof. done. Qed.

Lemma js_gt_int (q : Q) (k m : Z) :
  (q == inject_Z k)%Q -> js_gt (Fin q) m = (m <? k).
Proof.
  intros Hq. simpl. rewrite Hq.
  destruct (Qle_bool (inject_Z k) (inject_Z m)) eqn:E; simpl.
  - apply Qle_bool_iff in E. rewrite <- Zle_Qle in E. symmetry. apply Z.ltb_ge. exact E.
  - symmetry. apply Z.ltb_lt. apply Z.nle_gt. intros Hle.
    rewrite Zle_Qle in Hle. apply Qle_bool_iff in Hle. congruence.
Qed.

Lemma js_lt_int (q : Q) (k m : Z) :
  (q == inject_Z k)%Q -> js_lt (Fin q) m = (k <? m).
Proof.
  intros Hq. simpl. rewrite Hq.
  destruct (Qle_bool (inject_Z m) (inject_Z k)) eqn:E; simpl.
  - apply Qle_bool_iff in E. rewrite <- Zle_Qle in E. symmetry. apply Z.ltb_ge. exact E.
  - symmetry. apply Z.ltb_lt. apply Z.nle_gt. intros Hle.
    rewrite Zle_Qle in Hle. apply Qle_bool_iff in Hle. congruence.
Qed.

Lemma int_valued_of_mod1 (n : jsnum) :
  mod1_nonzero n = false ->
  exists q k, n = Fin q /\ (q == inject_Z k)%Q /\ int_valued n k.
Proof.
  intros H. destruct (mod1_zero_int n H) as (q & -> & Hq). by exists q, (Qfloor q).
Qed.

Ltac split_ifs H :=
  repeat match type of H with
  | context [if ?b then _ else _] => let E := fresh "E" in destruct b eqn:E
  end.

(** X11: when [validateWidthAndHeightRequirements] lets a request through,
    the width and height it stores are [parseFloat] of the width and of
    the height parameter (the width when there is no height), and both
    are integers from 1 to 2000. *)
Theorem validated_size_in_grid (to_number parse_float : string -> jsnum)
    (w : string) (h : option string) (wn hn : jsnum) :
  validateWidthAndHeightRequirements to_number parse_float (Some w) h = Next (wn, hn) ->
  wn = parse_float w /\ hn = parse_float (match h with None => w | Some s => s end) /\
  exists kw kh, int_valued wn kw /\ int_valued hn kh /\
    GRID_MIN <= kw <= GRID_MAX /\ GRID_MIN <= kh <= GRID_MAX.
Proof.
  intros H. unfold validateWidthAndHeightRequirements in H.
  set (sh := match h with None => w | Some s => s end).
  assert (Hh : match match h with None => Some w | Some _ => h end with
               | Some s => Some s | None => None end = Some sh)
    by (subst sh; by destruct h).
  destruct (match h with None => Some w | Some _ => h end) as [h'|] eqn:Eh; [|discriminate].
  injection Hh as <-.
  split_ifs H; try discriminate H. injection H as <- <-.
  apply orb_false_iff in E0 as [Mw Mh].
  apply orb_false_iff in E1 as [Gw Gh]. apply orb_false_iff in E2 as [Lw Lh].
  destruct (int_valued_of_mod1 _ Mw) as (qw & kw & Ew & Hqw & Iw).
  destruct (int_valued_of_mod1 _ Mh) as (qh & kh & Eh' & Hqh & Ih).
  do 2 (split; [done|]). exists kw, kh.
  rewrite Ew in Gw, Lw. rewrite Eh' in Gh, Lh.
  rewrite (js_gt_int _ kw) in Gw by exact Hqw. rewrite (js_gt_int _ kh) in Gh by exact Hqh.
  rewrite (js_lt_int _ kw) in Lw by exact Hqw. rewrite (js_lt_int _ kh) in Lh by exact Hqh.
  apply Z.ltb_ge in Gw, Gh, Lw, Lh. unfold GRID_MIN, GRID_MAX in *. repeat split; done || lia.
Qed.

Lemma validated_size_in_grid_witness :
  validateWidthAndHeightRequirements (fun _ => Fin 640) (fun _ => Fin 640) (Some "640") None =
    Next (Fin 640, Fin 640) /\
  (Fin 640 = Fin 640 /\ Fin 640 = Fin 640 /\
   exists kw kh, int_valued (Fin 640) kw /\ int_valued (Fin 640) kh /\
     GRID_MIN <= kw <= GRID_MAX /\ GRID_MIN <= kh <= GRID_MAX).
Proof.
  assert (E : validateWidthAndHeightRequirements (fun _ => Fin 640) (fun _ => Fin 640)
                (Some "640") None = Next (Fin 640, Fin 640)) by reflexivity.
  split; [exact E|].
  exact (validated_size_in_grid (fun _ => Fin 640) (fun _ => Fin 640) "640" None _ _ E).
Defined.



(** X13: when [validateSquareRequirements] lets a request through, the
    square is either unset or [parseFloat] of the query, an integer of
    at least 1 (there is no upper bound). *)
Theorem validated_square_positive (to_number parse_float : string -> jsnum)
    (square : option string) (r : option jsnum) :
  validateSquareRequirements to_number parse_float square = Next r ->
  (square = None /\ r = None) \/
  exists s k, square = Some s /\ r = Some (parse_float s) /\
    int_valued (parse_float s) k /\ SQUARE_MIN <= k.
Proof.
  intros H. unfold validateSquareRequirements in H.
  destruct square as [s|]; [|injection H as <-; by left].
  right. split_ifs H; try discriminate H. injection H as <-.
  destruct (int_valued_of_mod1 _ E1) as (q & k & Eq & Hq & I).
  exists s, k. do 3 (split; [done|]).
  rewrite Eq in E0. simpl in E0. fold (js_lt (Fin q) SQUARE_MIN) in E0.
  rewrite (js_lt_int _ k) in E0 by exact Hq. apply Z.ltb_ge in E0. exact E0.
Qed.

Lemma validated_square_positive_witness :
  validateSquareRequirements (fun _ => Fin 60) (fun _ => Fin 60) (Some "60") = Next (Some (Fin 60)) /\
  ((Some "60" = None /\ Some (Fin 60) = None) \/
   exists s k, Some "60" = Some s /\ Some (Fin 60) = Some ((fun _ => Fin 60) s) /\
     int_valued ((fun _ => Fin 60) s) k /\ SQUARE_MIN <= k).
Proof.
  assert (E : validateSquareRequirements (fun _ => Fin 60) (fun _ => Fin 60) (Some "60") =
              Next (Some (Fin 60))) by reflexivity.
  split; [exact E|].
  exact (validated_square_positive (fun _ => Fin 60) (fun _ => Fin 60) (Some "60") _ E).
Defined.

Lemma validate_amount_spec (to_number parse_float : string -> jsnum)
    (amount : option string) (square : option jsnum) (r : option jsnum) :
  validateAmountRequirements to_number parse_float amount square = Next r ->
  (amount = None /\ r = None) \/
  exists a k, amount = Some a /\ square = None /\ r = Some (parse_float a) /\
    int_valued (to_number a) k /\ AMOUNT_MIN <= k <= AMOUNT_MAX.
Proof.
  intros H. unfold validateAmountRequirements in H.
  destruct amount as [a|]; [|injection H as <-; by left].
  right. split_ifs H; try discriminate H.
  injection H as <-.
  destruct (int_valued_of_mod1 _ E0) as (q & k & Eq & Hq & I).
  exists a, k. do 4 (split; [done|]).
  apply orb_false_iff in E as [L G]. rewrite Eq in L, G.
  rewrite (js_lt_int _ k) in L by exact Hq. rewrite (js_gt_int _ k) in G by exact Hq.
  apply Z.ltb_ge in L, G. unfold AMOUNT_MIN, AMOUNT_MAX in *. lia.
Qed.

(** X14: when [validateAmountRequirements] lets a request through with an
    amount, no square was set, [Number(amount)] is an integer from 2 to
    2000, and the amount stored is [parseFloat(amount)]. *)
Theorem validated_amount_in_range (to_number parse_float : string -> jsnum)
    (amount : option string) (square : option jsnum) (r : option jsnum) :
  validateAmountRequirements to_number parse_float amount square = Next r ->
  (amount = None /\ r = None) \/
  exists a k, amount = Some a /\ square = None /\ r = Some (parse_float a) /\
    int_valued (to_number a) k /\ AMOUNT_MIN <= k <= AMOUNT_MAX.
Proof. apply validate_amount_spec. Qed.

Lemma validated_amount_in_range_witness :
  validateAmountRequirements (fun _ => Fin 5) (fun _ => Fin 5) (Some "5") None = Next (Some (Fin 5)) /\
  ((Some "5" = None /\ Some (Fin 5) = None) \/
   exists a k, Some "5" = Some a /\ @None jsnum = None /\ Some (Fin 5) = Some ((fun _ => Fin 5) a) /\
     int_valued ((fun _ => Fin 5) a) k /\ AMOUNT_MIN <= k <= AMOUNT_MAX).
Proof.
  assert (E : validateAmountRequirements (fun _ => Fin 5) (fun _ => Fin 5) (Some "5") None =
              Next (Some (Fin 5))) by reflexivity.
  split; [exact E|].
  exact (validated_amount_in_range (fun _ => Fin 5) (fun _ => Fin 5) (Some "5") None _ E).
Defined.

(** ** The random route *)

Lemma random_word_nonempty (idx : nat) : random_word idx <> EmptyString.
Proof.
  unfold random_word. destruct (nth_error WORDS idx) as [w|] eqn:E; [|done].
  apply nth_error_In in E. simpl in E.
  repeat (destruct E as [<-|E]; [done|]). done.
Qed.

(** X15: [generateRandomProperties] always leaves a square and a
    non-empty text in the request: a square that was set is kept, a
    text that was set and non-empty is kept, and an unset or empty text
    is replaced by a word of the list; the width and height are the
    drawn numbers. *)
Theorem random_properties_complete (square : option jsnum) (text : option string)
    (rw rh rs : Z) (widx : nat) :
  let '(w, h, sq, tx) := generateRandomProperties square text rw rh rs widx in
  w = Fin (inject_Z rw) /\ h = Fin (inject_Z rh) /\
  sq = Some (match square with Some s => s | None => Fin (inject_Z rs) end) /\
  exists t, tx = Some t /\ t <> EmptyString /\
    (match text with
     | Some t0 => t0 <> EmptyString -> t = t0
     | None => t = random_word widx
     end).
Proof.
  unfold generateRandomProperties. do 2 (split; [done|]). split; [by destruct square|].
  destruct text as [t0|].
  - destruct (String.eqb_spec t0 "") as [->|Hne].
    + exists (random_word widx). split; [done|]. split; [apply random_word_nonempty|done].
    + exists t0. by repeat split.
  - exists (random_word widx). split; [done|]. split; [apply random_word_nonempty|done].
Qed.




(** ** [saveAllImageStats] and the routes *)

Lemma add_with_normal (cmp : comparator) (name : string) (e : jvalue) (p : option Z)
    (i : bool) (now : Z) (st : store) :
  can_add e <> None ->
  add_with cmp name e p i now st = (Normal tt, store_after (add_with cmp name e p i now) st).
Proof.
  intros Hc. unfold store_after. rewrite add_with_unfold.
  destruct (can_add e) as [[|]|]; [reflexivity|reflexivity|done].
Qed.

Lemma add_with_rejected_store (cmp : comparator) (name : string) (e : jvalue) (p : option Z)
    (i : bool) (now : Z) (st : store) :
  can_add e = Some false -> store_after (add_with cmp name e p i now) st = st.
Proof. intros Hc. unfold store_after. by rewrite add_with_unfold, Hc. Qed.

Lemma stats_path_shape (baseUrl : string) (w h : Z) (sq : option Z) (t : option string) :
  exists rest, stats_path baseUrl w h sq t = String.append baseUrl (String "/" rest).
Proof. unfold stats_path. destruct sq, t; eexists; rewrite ?append_assoc_s; reflexivity. Qed.

Lemma can_add_stats_path (baseUrl : string) (w h : Z) (sq : option Z) (t : option string) :
  can_add (JStr (stats_path baseUrl w h sq t)) = Some true.
Proof.
  destruct (stats_path_shape baseUrl w h sq t) as [rest ->]. simpl.
  by destruct baseUrl.
Qed.

(** The stores [saveAllImageStats] goes through. *)
Definition save_stats_store (baseUrl : string) (w h : Z) (sq : option Z)
    (text reference : option string) (now : nat -> Z) (st : store) : store :=
  let path := stats_path baseUrl w h sq text in
  let st1 := store_after (addArrayEntry "hits" (JStr path) None false (now 0%nat)) st in
  let st2 := store_after (addArrayEntry "paths" (JStr path) (Some 10) true (now 1%nat)) st1 in
  let st3 := store_after (addArrayEntry "texts" (text_entry text) (Some 10) true (now 2%nat)) st2 in
  let st4 := store_after (addArrayEntry "sizes" (size_entry w h) (Some 10) true (now 3%nat)) st3 in
  let st5 := store_after (addArrayCountEntry "sizes-all" (size_entry w h) (Some 10) true (now 4%nat)) st4 in
  match reference with
  | Some r =>
      if negb (String.eqb r "")
      then store_after (addArrayCountEntry "references" (JStr r) (Some 10) true (now 5%nat)) st5
      else st5
  | None => st5
  end.

Lemma saveAllImageStats_run (baseUrl : string) (w h : Z) (sq : option Z)
    (text reference : option string) (now : nat -> Z) (st : store) :
  saveAllImageStats baseUrl w h sq text reference now st =
  (Normal tt, save_stats_store baseUrl w h sq text reference now st).
Proof.
  unfold saveAllImageStats, save_stats_store, addArrayEntry, addArrayCountEntry, bind.
  rewrite add_with_normal by (rewrite can_add_stats_path; discriminate).
  cbv beta iota zeta.
  rewrite add_with_normal by (rewrite can_add_stats_path; discriminate).
  cbv beta iota zeta.
  rewrite add_with_normal by (destruct text; discriminate).
  cbv beta iota zeta.
  rewrite add_with_normal by discriminate.
  cbv beta iota zeta.
  rewrite add_with_normal by discriminate.
  cbv beta iota zeta.
  destruct reference as [r|]; [|reflexivity].
  destruct (negb (String.eqb r "")) eqn:Er; [|reflexivity].
  rewrite add_with_normal; [reflexivity|]. simpl. rewrite Er. discriminate.
Qed.

Lemma saveAllImageStats_store (baseUrl : string) (w h : Z) (sq : option Z)
    (text reference : option string) (now : nat -> Z) (st : store) :
  store_after (saveAllImageStats baseUrl w h sq text reference now) st =
  save_stats_store baseUrl w h sq text reference now st.
Proof. unfold store_after at 1. by rewrite saveAllImageStats_run. Qed.

Lemma save_stats_view_other (baseUrl : string) (w h : Z) (sq : option Z)
    (text reference : option string) (now : nat -> Z) (st : store) (name : string) :
  name ∉ ["hits"; "paths"; "texts"; "sizes"; "sizes-all"] ->
  (forall r, reference = Some r -> String.eqb r "" = false -> name <> "references") ->
  view (save_stats_store baseUrl w h sq text reference now st) name = view st name.
Proof.
  intros Hn Hr. unfold save_stats_store.
  assert (Hne : forall x, x ∈ ["hits"; "paths"; "texts"; "sizes"; "sizes-all"] -> x <> name)
    by (intros x Hx ->; contradiction).
  assert (Hfive : view (store_after (addArrayCountEntry "sizes-all" (size_entry w h) (Some 10) true (now 4%nat))
    (store_after (addArrayEntry "sizes" (size_entry w h) (Some 10) true (now 3%nat))
    (store_after (addArrayEntry "texts" (text_entry text) (Some 10) true (now 2%nat))
    (store_after (addArrayEntry "paths" (JStr (stats_path baseUrl w h sq text)) (Some 10) true (now 1%nat))
    (store_after (addArrayEntry "hits" (JStr (stats_path baseUrl w h sq text)) None false (now 0%nat)) st)))))
    name = view st name).
  { unfold addArrayEntry, addArrayCountEntry.
    rewrite !add_with_view_other; try reflexivity; apply Hne; set_solver. }
  destruct reference as [r|]; [|exact Hfive].
  destruct (String.eqb r "") eqn:Er; simpl; [exact Hfive|].
  unfold addArrayCountEntry. rewrite add_with_view_other; [exact Hfive|].
  by apply not_eq_sym, (Hr r).
Qed.

(** X17: [saveAllImageStats] changes only the arrays [hits], [paths],
    [texts], [sizes], [sizes-all] and [references]; it leaves
    [references] as it is when the request has no [Referer] or an empty
    one, and [texts] as it is when the request has no text. *)
Theorem saveAllImageStats_touches_only_stats (baseUrl : string) (w h : Z) (sq : option Z)
    (text reference : option string) (now : nat -> Z) (st : store) :
  (forall name, name ∉ ["hits"; "paths"; "texts"; "sizes"; "sizes-all"; "references"] ->
     view (store_after (saveAllImageStats baseUrl w h sq text reference now) st) name = view st name) /\
  ((reference = None \/ reference = Some "") ->
     view (store_after (saveAllImageStats baseUrl w h sq text reference now) st) "references" =
     view st "references") /\
  (text = None ->
     view (store_after (saveAllImageStats baseUrl w h sq text reference now) st) "texts" =
     view st "texts").
Proof.
  rewrite saveAllImageStats_store. split; [|split].
  - intros name Hn. apply save_stats_view_other; [set_solver|].
    intros r _ _ ->. set_solver.
  - intros Href. apply save_stats_view_other; [set_solver|].
    intros r Hr Hne. destruct Href as [->| ->]; [discriminate|].
    injection Hr as <-. discriminate.
  - intros ->. unfold save_stats_store.
    set (path := stats_path baseUrl w h sq None).
    assert (H5 : view (store_after (addArrayCountEntry "sizes-all" (size_entry w h) (Some 10) true (now 4%nat))
      (store_after (addArrayEntry "sizes" (size_entry w h) (Some 10) true (now 3%nat))
      (store_after (addArrayEntry "texts" (text_entry None) (Some 10) true (now 2%nat))
      (store_after (addArrayEntry "paths" (JStr path) (Some 10) true (now 1%nat))
      (store_after (addArrayEntry "hits" (JStr path) None false (now 0%nat)) st))))) "texts" =
      view st "texts").
    { unfold addArrayEntry, addArrayCountEntry.
      rewrite add_with_view_other by discriminate.
      rewrite add_with_view_other by discriminate.
      rewrite add_with_rejected_store by reflexivity.
      rewrite add_with_view_other by discriminate.
      rewrite add_with_view_other by discriminate. reflexivity. }
    destruct reference as [r|]; [|exact H5].
    destruct (negb (String.eqb r "")); [|exact H5].
    unfold addArrayCountEntry. rewrite add_with_view_other by discriminate. exact H5.
Qed.

Lemma saveAllImageStats_touches_only_stats_witness :
  view (store_after (saveAllImageStats "/img" 640 480 (Some 60) None None (fun _ => 0))
          (new_state_management false ∅)) "visits" =
  view (new_state_management false ∅) "visits".
Proof.
  apply (proj1 (saveAllImageStats_touches_only_stats "/img" 640 480 (Some 60) None None
                  (fun _ => 0) (new_state_management false ∅))).
  apply (bool_decide_unpack _). vm_compute. exact I.
Defined.

Lemma image_route_run (to_number parse_float : string -> jsnum) (baseUrl : string)
    (width height square text reference : option string) (now : nat -> Z) (st : store) :
  image_route to_number parse_float baseUrl width height square text reference now st =
  match validateWidthAndHeightRequirements to_number parse_float width height with
  | Respond c b => (Normal (Respond c b), st)
  | Crash m => (Normal (Crash m), st)
  | Next (wn, hn) =>
      match validateSquareRequirements to_number parse_float square with
      | Respond c b => (Normal (Respond c b), st)
      | Crash m => (Normal (Crash m), st)
      | Next sq =>
          (Normal (Next (wn, hn, sq, text)),
           save_stats_store baseUrl (jsnum_int wn) (jsnum_int hn) (option_map jsnum_int sq)
             text reference now st)
      end
  end.
Proof.
  unfold image_route.
  destruct (validateWidthAndHeightRequirements _ _ width height) as [| [wn hn] |]; [done| |done].
  destruct (validateSquareRequirements _ _ square) as [|sq|]; [done| |done].
  unfold bind. by rewrite saveAllImageStats_run.
Qed.

(** X18: the image route records nothing for a request it refuses: when
    it answers with an error status, the store is unchanged. *)
Theorem image_route_refusal_keeps_store (to_number parse_float : string -> jsnum)
    (baseUrl : string) (width height square text reference : option string)
    (now : nat -> Z) (st : store) (c : Z) (b : jvalue) :
  result_of (image_route to_number parse_float baseUrl width height square text reference now) st =
    Normal (Respond c b) ->
  store_after (image_route to_number parse_float baseUrl width height square text reference now) st = st.
Proof.
  unfold result_of, store_after. rewrite image_route_run.
  destruct (validateWidthAndHeightRequirements _ _ width height) as [| [wn hn] |]; [done| |done].
  destruct (validateSquareRequirements _ _ square) as [|sq|]; [done| |done].
  discriminate.
Qed.

Lemma image_route_refusal_keeps_store_witness :
  store_after (image_route (fun _ => Fin 3000) (fun _ => Fin 3000) "/img" (Some "3000") None
                 None None None (fun _ => 0)) (new_state_management false ∅) =
  new_state_management false ∅.
Proof.
  apply (image_route_refusal_keeps_store (fun _ => Fin 3000) (fun _ => Fin 3000) "/img"
           (Some "3000") None None None None (fun _ => 0) (new_state_management false ∅) 403
           (error_body "Height & Width"
              (String.append "The height & width must equal to or less than "
                 (String.append (number_to_string GRID_MAX) "."))));
  reflexivity.
Defined.



(** X20: the inspiration route never records anything nor sends an image
    for a request that sets [text]: it never reaches [next()] with an
    image request and leaves the store as it is. *)
Theorem inspiration_route_refuses_text (to_number parse_float : string -> jsnum)
    (baseUrl : string) (width height square : option string) (t : string)
    (reference : option string) (qi : nat) (word : nat -> nat) (now : nat -> Z) (st : store) :
  store_after (inspiration_route to_number parse_float baseUrl width height square (Some t)
                 reference qi word now) st = st /\
  forall r, result_of (inspiration_route to_number parse_float baseUrl width height square (Some t)
                         reference qi word now) st <> Normal (Next r).
Proof.
  unfold store_after, result_of, inspiration_route.
  destruct (validateWidthAndHeightRequirements _ _ width height) as [c b| [wn hn] |m];
    [| destruct (validateSquareRequirements _ _ square) as [c b|sq|m] |];
    simpl; (split; [reflexivity|intros r Hr; discriminate Hr]).
Qed.

(** ** The top-sizes and top-referrers handlers *)

Lemma sorted_by_count_bool_run (name : string) (st : store) :
  sorted_by_count_bool name st = (Normal (view st name), st).
Proof.
  unfold sorted_by_count_bool, view.
  destruct (load st name) as [content src] eqn:El. simpl.
  rewrite js_sort_nonneg by (intros a b; unfold cmp_count_bool; by destruct (count a <? count b)).
  f_equal. destruct src; [|done|done].
  destruct st as [fp lp fs]. unfold sort_in_place. simpl. f_equal.
  unfold load in El. simpl in El.
  destruct fp.
  - destruct (fs !! name); [discriminate|].
    destruct (lp !! name) eqn:E; [|discriminate]. injection El as <-. by apply insert_id.
  - destruct (lp !! name) eqn:E; [|discriminate]. injection El as <-. by apply insert_id.
Qed.

(** X21: [sendTopSizes] and [sendTopReferences] hand out one object per
    stored record, in the stored order, and leave the store as it is
    (the sort by [a.count < b.count] moves nothing); a stored size
    [{w, h}] comes out as [{n: count, w, h}]. *)
Theorem top_handlers_keep_stored_order (st : store) :
  sendTopSizes st = (Normal (map top_size (view st "sizes-all")), st) /\
  sendTopReferences st = (Normal (map top_reference (view st "references")), st) /\
  (forall w h t c, top_size (mkRecord (size_entry w h) t c) =
                   JObj [("n", JNum c); ("w", JNum w); ("h", JNum h)]).
Proof.
  unfold sendTopSizes, sendTopReferences, bind.
  rewrite !sorted_by_count_bool_run. by repeat split.
Qed.
